(** * homebridge-webrf-platform-plugin: the WebRF platform (src/index.ts)

    A shallow embedding of the [WebRFPlatform] class: the reconciliation pass
    run on [DID_FINISH_LAUNCHING], the accessory life-cycle methods and the
    handler wired to the [On] characteristic of every switch.

    Conventions.
    - A JavaScript string is a Rocq [string], one character per UTF-16 code
      unit; the model covers strings whose code units are below 256.
    - [this] is the record [WebRFPlatform]; the calls made on the
      collaborators ([log], [api], [axios]) are the [Event]s a method emits,
      in program order.  A call on the logger or on the host's registry
      ([registerPlatformAccessories], [unregisterPlatformAccessories]) is
      taken to return; the library calls that compute a value for the
      method ([hap.uuid.generate], [new Accessory], [getService]) throw as
      the library does.
    - What an awaited HTTP call yields is an input of the model
      ([AxiosResult]). *)

From Stdlib Require Import Ascii String DecimalString Sorted.
From stdpp Require Import base list strings gmap.

Open Scope string_scope.
Open Scope list_scope.

(** ** JavaScript values *)

(** The values a parsed JSON body can hold, and [undefined].  A number is held
    by its canonical rendering (what [String(n)] yields); an object by its own
    enumerable properties in enumeration order, keys pairwise distinct. *)
#[warnings="-register-all"]
Inductive jsval : Type :=
| JUndefined
| JNull
| JBool (b : bool)
| JNum (repr : string)
| JStr (s : string)
| JArr (elems : list jsval)
| JObj (props : list (string * jsval)).

Inductive Exn : Type := TypeError | AssertionError.

(** [if (v)] *)
Definition ToBoolean (v : jsval) : bool :=
  match v with
  | JUndefined | JNull => false
  | JBool b => b
  | JNum r => negb (bool_decide (r = "0")) && negb (bool_decide (r = "NaN"))
  | JStr s => negb (bool_decide (s = ""))
  | JArr _ | JObj _ => true
  end.

(** [Array.prototype.join] on an array of strings *)
Fixpoint join (sep : string) (l : list string) : string :=
  match l with
  | [] => ""
  | [x] => x
  | x :: l' => x +:+ sep +:+ join sep l'
  end.

(** [String(v)], the conversion behind [v + "..."] *)
Fixpoint ToString (v : jsval) : string :=
  match v with
  | JUndefined => "undefined"
  | JNull => "null"
  | JBool true => "true"
  | JBool false => "false"
  | JNum r => r
  | JStr s => s
  | JArr l =>
      join ","
        ((fix elems (l : list jsval) : list string :=
            match l with
            | [] => []
            | x :: l' =>
                match x with
                | JUndefined | JNull => ""
                | _ => ToString x
                end :: elems l'
            end) l)
  | JObj _ => "[object Object]"
  end.

Definition string_of_nat (n : nat) : string :=
  NilZero.string_of_uint (Nat.to_uint n).

Fixpoint assoc (k : string) (props : list (string * jsval)) : option jsval :=
  match props with
  | [] => None
  | (k', v) :: props' => if bool_decide (k' = k) then Some v else assoc k props'
  end.

(** The index an array-index key denotes, below [len]. *)
Definition index_of (k : string) (len : nat) : option nat :=
  List.find (fun i => bool_decide (string_of_nat i = k)) (seq 0 len).

Fixpoint code_units (s : string) : list ascii :=
  match s with
  | EmptyString => []
  | String c s' => c :: code_units s'
  end.

(** [v[k]] for an own property [k]: [inl TypeError] when [v] is [undefined] or
    [null], [undefined] when [v] has no such property.  Members inherited from
    the prototypes are not modelled; the program reads only ["data"],
    ["status"] and keys that [keys] returned. *)
Definition Get (v : jsval) (k : string) : Exn + jsval :=
  match v with
  | JUndefined | JNull => inl TypeError
  | JObj props => inr (default JUndefined (assoc k props))
  | JArr l =>
      inr (default JUndefined (i ← index_of k (length l); l !! i))
  | JStr s =>
      inr (default JUndefined
             (i ← index_of k (String.length s);
              c ← code_units s !! i;
              Some (JStr (String c EmptyString))))
  | JBool _ | JNum _ => inr JUndefined
  end.

(** [v === "..."] against a string literal *)
Definition strict_eq_str (v : jsval) (s : string) : bool :=
  match v with
  | JStr s' => bool_decide (s' = s)
  | _ => false
  end.

(** lodash [_.keys]: the own enumerable property names; the indices of an
    array or string; nothing for the other primitives, [null], [undefined]. *)
Definition keys (v : jsval) : list string :=
  match v with
  | JObj props => map fst props
  | JArr l => map string_of_nat (seq 0 (length l))
  | JStr s => map string_of_nat (seq 0 (String.length s))
  | _ => []
  end.

(** lodash [_.difference(array, values)]: the elements of [array] not in
    [values], in the order of [array], repetitions kept. *)
Definition difference (array values : list string) : list string :=
  filter (fun x => x ∉ values) array.

(** ECMAScript WhiteSpace and LineTerminator code units (below 256). *)
Definition is_whitespace (c : ascii) : bool :=
  bool_decide (nat_of_ascii c ∈ [9; 10; 11; 12; 13; 32; 160]).

(** [String.prototype.trimRight]: takes no parameter, so the arguments of a
    call are never read; strips trailing white space. *)
Fixpoint trimRight (this : string) (arguments : list jsval) : string :=
  match this with
  | EmptyString => EmptyString
  | String c rest =>
      match trimRight rest arguments with
      | EmptyString => if is_whitespace c then EmptyString else String c EmptyString
      | t => String c t
      end
  end.

(** ** The platform and its collaborators *)

Definition PLUGIN_NAME : string := "WebRF_Plugin".
Definition PLATFORM_NAME : string := "WebRFPlatform".

Inductive ServiceType : Type := Switch | AccessoryInformation.

Inductive Listener : Type :=
| OnIdentify    (* accessory.on(PlatformAccessoryEvent.IDENTIFY, ...) *)
| OnSwitchSet.  (* the Switch service's On characteristic, .on(SET, ...) *)

(** [accessory.context]: the two fields this plugin stores. *)
Record Context : Type := mkContext {
  action : string;
  actionUrl : string;
}.

Record PlatformAccessory : Type := mkAccessory {
  displayName : jsval;
  UUID : string;
  services : list (ServiceType * jsval);
  context : Context;
  listeners : list Listener;
}.

Inductive LogLevel : Type := Info | Error.

(** A call on a collaborator. *)
Inductive Event : Type :=
| Log (level : LogLevel) (message : string) (parameters : list jsval)
| ApiOn (event : string)
| AxiosGet (url : string)
| AxiosPost (url : string)
| Callback                          (* the SET callback, called with no error *)
| UpdateValue (v : jsval)           (* On characteristic, updateValue(v) *)
| UnhandledRejection (e : Exn)      (* an async handler's promise rejected *)
| RegisterPlatformAccessories (plugin platform : string) (accs : list PlatformAccessory)
| UnregisterPlatformAccessories (plugin platform : string) (accs : list PlatformAccessory).

(** What [await axios.get(...)] / [await axios.post(...)] yields: the
    response, of which the program reads [.data] only, or a rejection. *)
Inductive AxiosResult : Type :=
| Fulfilled (data : jsval)
| Rejected.

(** The part of [hap] the platform computes with: the UUID that
    [hap.uuid.generate] derives from a string. *)
Class HAP : Type := {
  uuid_generate : string -> string;
}.

(** The fields of [this] (the collaborators [log] and [api] are the event
    sink). *)
Record WebRFPlatform : Type := mkPlatform {
  configURL : string;
  accessories : list PlatformAccessory;
}.

(** ** Methods: state, exceptions and emitted events *)

Inductive Completion (A : Type) : Type :=
| Normal (a : A)
| Throw (e : Exn).
Arguments Normal {A} a.
Arguments Throw {A} e.

Definition M (A : Type) : Type :=
  WebRFPlatform -> Completion A * WebRFPlatform * list Event.

Definition ret {A} (a : A) : M A := fun this => (Normal a, this, []).

Definition bind {A B} (m : M A) (k : A -> M B) : M B :=
  fun this =>
    match m this with
    | (Normal a, this', evs) =>
        match k a this' with
        | (c, this'', evs') => (c, this'', evs ++ evs')
        end
    | (Throw e, this', evs) => (Throw e, this', evs)
    end.

Notation "x <- m ;; k" := (bind m (fun x => k))
  (at level 100, m at next level, right associativity).
Notation "m ;; k" := (bind m (fun _ => k))
  (at level 100, right associativity).

Definition throw {A} (e : Exn) : M A := fun this => (Throw e, this, []).
Definition emit (e : Event) : M unit := fun this => (Normal tt, this, [e]).
Definition gets {A} (f : WebRFPlatform -> A) : M A := fun this => (Normal (f this), this, []).
Definition modify (f : WebRFPlatform -> WebRFPlatform) : M unit :=
  fun this => (Normal tt, f this, []).

Definition lift {A} (r : Exn + A) : M A :=
  match r with
  | inl e => throw e
  | inr a => ret a
  end.

(** [Array.prototype.forEach] *)
Fixpoint forEach {A} (l : list A) (f : A -> M unit) : M unit :=
  match l with
  | [] => ret tt
  | x :: l' => f x ;; forEach l' f
  end.

Definition log_info (message : string) (parameters : list jsval) : M unit :=
  emit (Log Info message parameters).
Definition log_error (message : string) (parameters : list jsval) : M unit :=
  emit (Log Error message parameters).

(** [accessory.getService(hap.Service.Switch)] *)
Definition getService (accessory : PlatformAccessory) (t : ServiceType)
  : option (ServiceType * jsval) :=
  List.find (fun s => match s.1, t with
                      | Switch, Switch | AccessoryInformation, AccessoryInformation => true
                      | _, _ => false
                      end) (services accessory).

Definition add_listener (l : Listener) (accessory : PlatformAccessory) : PlatformAccessory :=
  mkAccessory (displayName accessory) (UUID accessory) (services accessory)
    (context accessory) (listeners accessory ++ [l]).

(** [new Accessory(name, uuid)]: the constructor asserts that the display
    name is truthy. *)
Definition new_Accessory (name : jsval) (uuid : string) : Exn + PlatformAccessory :=
  if ToBoolean name then
    inr (mkAccessory name uuid [(AccessoryInformation, name)] (mkContext "" "") [])
  else inl AssertionError.

Definition addService (accessory : PlatformAccessory) (t : ServiceType) (name : jsval)
  : PlatformAccessory :=
  mkAccessory (displayName accessory) (UUID accessory) (services accessory ++ [(t, name)])
    (context accessory) (listeners accessory).

Definition set_context (accessory : PlatformAccessory) (c : Context) : PlatformAccessory :=
  mkAccessory (displayName accessory) (UUID accessory) (services accessory)
    c (listeners accessory).

(** [this.accessories.push(accessory)] *)
Definition push (accessory : PlatformAccessory) (this : WebRFPlatform) : WebRFPlatform :=
  mkPlatform (configURL this) (accessories this ++ [accessory]).

(** [configureAccessory]: returns the accessory with its listeners bound, the
    object that [this.accessories] then holds. *)
Definition configureAccessory (accessory : PlatformAccessory) : M PlatformAccessory :=
  emit (Log Info "Configuring accessory %s" [displayName accessory]) ;;
  let accessory := add_listener OnIdentify accessory in
  match getService accessory Switch with
  | None => throw TypeError     (* getService(...)!.getCharacteristic on undefined *)
  | Some _ =>
      let accessory := add_listener OnSwitchSet accessory in
      modify (push accessory) ;;
      ret accessory
  end.

Section Platform.
Context `{HAP}.

(** [hap.uuid.generate(name)]: hashes a string; the hash rejects every other
    value a JSON body can hold with a TypeError. *)
Definition generate (data : jsval) : Exn + string :=
  match data with
  | JStr s => inr (uuid_generate s)
  | _ => inl TypeError
  end.

Definition addAccessory (name : jsval) (action : string) : M unit :=
  log_info "Adding new accessory with name %s" [name] ;;
  uuid <- lift (generate name) ;;
  accessory <- lift (new_Accessory name uuid) ;;
  let accessory := addService accessory Switch name in
  url <- gets configURL ;;
  let accessory := set_context accessory (mkContext action (url +:+ action)) in
  accessory <- configureAccessory accessory ;;
  emit (RegisterPlatformAccessories PLUGIN_NAME PLATFORM_NAME [accessory]).

Definition removeAccessory (action' : string) : M unit :=
  log_info "Removing accessory with action %s" [JStr action'] ;;
  accessoryToRemove <-
    gets (fun this => filter (fun accessory => action (context accessory) = action')
                        (accessories this)) ;;
  if bool_decide (length accessoryToRemove = 0) then
    log_error ("Unable to remove accessory " +:+ action' +:+ "! Does not exist.") []
  else
    emit (UnregisterPlatformAccessories PLUGIN_NAME PLATFORM_NAME accessoryToRemove).

Definition removeAccessories : M unit :=
  log_info "Removing all accessories" [] ;;
  all <- gets accessories ;;
  emit (UnregisterPlatformAccessories PLUGIN_NAME PLATFORM_NAME all) ;;
  modify (fun this => mkPlatform (configURL this) []).

(** The [DID_FINISH_LAUNCHING] handler; [switches] is what the awaited
    [axios.get] yields. *)
Definition didFinishLaunching (switches : AxiosResult) : M unit :=
  log_info "Cache restored." [] ;;
  log_info "Loading switch data" [] ;;
  url <- gets configURL ;;
  emit (AxiosGet url) ;;
  match switches with
  | Rejected => log_error "Failed to access server!" []
  | Fulfilled data =>
      registeredSwitches <-
        gets (fun this => map (fun accessory => action (context accessory))
                            (accessories this)) ;;
      switchData <- lift (Get data "data") ;;
      let switchActions := keys switchData in
      let switchesToRemove := difference registeredSwitches switchActions in
      let switchesToAdd := difference switchActions registeredSwitches in
      (if ToBoolean (JArr (map JStr switchesToRemove)) then
         log_info ("Removing switches: " +:+ join ", " switchesToRemove) [] ;;
         forEach switchesToRemove (fun action => removeAccessory action)
       else
         log_info "No switches to remove" []) ;;
      (if ToBoolean (JArr (map JStr switchesToAdd)) then
         log_info ("Adding switches: " +:+ join ", " switchesToAdd) [] ;;
         forEach switchesToAdd
           (fun action => name <- lift (Get switchData action) ;; addAccessory name action)
       else
         log_info "No switches to add" [])
  end.

(** The constructor: the platform object and the calls it makes. *)
Definition new_WebRFPlatform (config_url : string) : WebRFPlatform * list Event :=
  (mkPlatform (trimRight config_url [JStr "/"] +:+ "/api/v1/") [],
   [Log Info "Starting WebRF Plugin" []; ApiOn "didFinishLaunching"]).

(** *** Reading a run *)

Definition outcome {A} (m : M A) (this : WebRFPlatform) : Completion A := (m this).1.1.
Definition state_after {A} (m : M A) (this : WebRFPlatform) : WebRFPlatform := (m this).1.2.
Definition events {A} (m : M A) (this : WebRFPlatform) : list Event := (m this).2.

(** [this.accessories.map(accessory => accessory.context.action)] *)
Definition localKeys (this : WebRFPlatform) : list string :=
  map (fun accessory => action (context accessory)) (accessories this).

(** The accessory [addAccessory name action] builds under base [url] for a
    name it accepts. *)
Definition created (url : string) (name : string) (action : string) : PlatformAccessory :=
  mkAccessory (JStr name) (uuid_generate name)
    [(AccessoryInformation, JStr name); (Switch, JStr name)]
    (mkContext action (url +:+ action))
    [OnIdentify; OnSwitchSet].

(** The exception [addAccessory] ends with on a name: none for a non-empty
    string. *)
Definition name_error (name : jsval) : option Exn :=
  match name with
  | JStr "" => Some AssertionError
  | JStr _ => None
  | _ => Some TypeError
  end.

Definition name_string (name : jsval) : string :=
  match name with
  | JStr s => s
  | _ => ""
  end.

(** [switchData[action]] where the read does not throw. *)
Definition switch_name (switchData : jsval) (action : string) : jsval :=
  match Get switchData action with
  | inr v => v
  | inl _ => JUndefined
  end.

(** The remote key set a pass works with, as far as the response body
    yields one: none when reading [data.data] throws. *)
Definition remote_keys (data : jsval) : list string :=
  match Get data "data" with
  | inl _ => []
  | inr switchData => keys switchData
  end.

(** The accessory a pass builds for one key. *)
Definition created_for (url : string) (switchData : jsval) (action : string)
  : PlatformAccessory :=
  created url (name_string (switch_name switchData action)) action.

(** The create call for one key: the host is told to register the new
    accessory. *)
Definition create (url : string) (switchData : jsval) (action : string) : Event :=
  RegisterPlatformAccessories PLUGIN_NAME PLATFORM_NAME
    [created_for url switchData action].

(** The keys of [ks] that get their accessory when [addAccessory] is called
    on each in turn: those before the first whose name it rejects. *)
Fixpoint added (switchData : jsval) (ks : list string) : list string :=
  match ks with
  | [] => []
  | k :: ks' =>
      match name_error (switch_name switchData k) with
      | None => k :: added switchData ks'
      | Some _ => []
      end
  end.

(** How that loop ends: with the exception of the first rejected name. *)
Fixpoint add_outcome (switchData : jsval) (ks : list string) : Completion unit :=
  match ks with
  | [] => Normal tt
  | k :: ks' =>
      match name_error (switch_name switchData k) with
      | None => add_outcome switchData ks'
      | Some e => Throw e
      end
  end.

(** The destroy call for one key: the host is told to unregister the
    accessories of the store that carry it. *)
Definition destroy (this : WebRFPlatform) (action' : string) : Event :=
  UnregisterPlatformAccessories PLUGIN_NAME PLATFORM_NAME
    (filter (fun accessory => action (context accessory) = action') (accessories this)).

(** The events of one [removeAccessory] call, and of one [addAccessory]
    call made by the pass. *)
Definition removeEvents (this : WebRFPlatform) (k : string) : list Event :=
  [Log Info "Removing accessory with action %s" [JStr k];
   if bool_decide (length (filter (fun a => action (context a) = k) (accessories this)) = 0)
   then Log Error ("Unable to remove accessory " +:+ k +:+ "! Does not exist.") []
   else destroy this k].

Definition addEvents (url : string) (switchData : jsval) (k : string) : list Event :=
  [Log Info "Adding new accessory with name %s" [switch_name switchData k];
   Log Info "Configuring accessory %s" [switch_name switchData k];
   create url switchData k].

(** The events of that loop over [ks]: the calls for the accepted keys, then
    the log line of the call that throws. *)
Fixpoint addTrace (url : string) (switchData : jsval) (ks : list string) : list Event :=
  match ks with
  | [] => []
  | k :: ks' =>
      match name_error (switch_name switchData k) with
      | None => addEvents url switchData k ++ addTrace url switchData ks'
      | Some _ =>
          [Log Info "Adding new accessory with name %s" [switch_name switchData k]]
      end
  end.

End Platform.

(** The create and destroy calls among the events of a run. *)
Definition is_host_op (e : Event) : bool :=
  match e with
  | RegisterPlatformAccessories _ _ _ | UnregisterPlatformAccessories _ _ _ => true
  | _ => false
  end.

Definition host_ops (evs : list Event) : list Event := List.filter is_host_op evs.

(** The accessories the host was asked to register. *)
Definition registered (evs : list Event) : list PlatformAccessory :=
  flat_map (fun e => match e with
                     | RegisterPlatformAccessories _ _ accs => accs
                     | _ => []
                     end) evs.

Definition is_register (e : Event) : bool :=
  match e with
  | RegisterPlatformAccessories _ _ _ => true
  | _ => false
  end.

Definition is_unregister (e : Event) : bool :=
  match e with
  | UnregisterPlatformAccessories _ _ _ => true
  | _ => false
  end.

(** ** The SET handler of the [On] characteristic

    The handler that [configureAccessory] binds, run on an event loop with a
    clock in milliseconds ([N]).  [callback()] makes HAP store the requested value
    in the characteristic; the handler then leaves two continuations behind:
    the [setTimeout] callback and its own remainder after [await axios.post].
    When the post settles, with what, and whether it runs ahead of a timer
    due at the same instant, are inputs. *)

Inductive Task : Type :=
| ResetTimer                          (* the callback given to setTimeout *)
| AfterPost (response : AxiosResult). (* the handler from its await on *)

Record EventLoop : Type := mkLoop {
  now : N;
  On : jsval;                     (* the value of the On characteristic *)
  written : list (N * jsval);     (* every write to On, with its time *)
  pending : list (N * Task);      (* due time and continuation, soonest first *)
  emitted : list Event;
}.

Definition say (e : Event) (l : EventLoop) : EventLoop :=
  mkLoop (now l) (On l) (written l) (pending l) (emitted l ++ [e]).

Definition write_On (v : jsval) (l : EventLoop) : EventLoop :=
  mkLoop (now l) v (written l ++ [(now l, v)]) (pending l) (emitted l).

Fixpoint enqueue (ahead_on_tie : bool) (x : N * Task) (q : list (N * Task))
  : list (N * Task) :=
  match q with
  | [] => [x]
  | y :: q' =>
      if N.ltb x.1 y.1 || (ahead_on_tie && N.eqb x.1 y.1)
      then x :: y :: q'
      else y :: enqueue ahead_on_tie x q'
  end.

Definition schedule (ahead_on_tie : bool) (delay : N) (t : Task) (l : EventLoop)
  : EventLoop :=
  mkLoop (now l) (On l) (written l)
    (enqueue ahead_on_tie ((now l + delay)%N, t) (pending l)) (emitted l).

(** [setTimeout(callback, ms)]: timers due at the same instant run in the
    order they were set. *)
Definition setTimeout (callback : Task) (ms : N) (l : EventLoop) : EventLoop :=
  schedule false ms callback l.

(** The handler up to its [await]. *)
Definition onSet (accessory : PlatformAccessory) (value : jsval)
    (latency : N) (ahead_on_tie : bool) (response : AxiosResult)
    (l : EventLoop) : EventLoop :=
  let l := say (Log Info (ToString (displayName accessory) +:+ " was triggered.") []) l in
  let l := write_On value (say Callback l) in
  let l := setTimeout ResetTimer 3000 l in
  let l := say (AxiosPost (actionUrl (context accessory))) l in
  schedule ahead_on_tie latency (AfterPost response) l.

Definition run_task (accessory : PlatformAccessory) (t : Task) (l : EventLoop)
  : EventLoop :=
  match t with
  | ResetTimer =>
      let l := say (Log Info (ToString (displayName accessory)
                              +:+ ": updating button value to false.") []) l in
      write_On (JBool false) (say (UpdateValue (JBool false)) l)
  | AfterPost Rejected =>
      say (Log Error ("Failed to trigger request for "
                      +:+ ToString (displayName accessory)) []) l
  | AfterPost (Fulfilled data) =>
      match Get data "status" with
      | inl e => say (UnhandledRejection e) l
      | inr status =>
          if strict_eq_str status "ok" then
            say (Log Info (ToString (displayName accessory)
                           +:+ " triggered successfully!") []) l
          else
            say (Log Error ("Failed to trigger: " +:+ ToString (displayName accessory)
                            +:+ "! Please check server!") []) l
      end
  end.

(** The loop runs the continuations in the order of [pending], the clock
    moving to each due time; none of them schedules another. *)
Definition drain (accessory : PlatformAccessory) (l : EventLoop) : EventLoop :=
  fold_left
    (fun st '(due, t) =>
       run_task accessory t
         (mkLoop (N.max (now st) due) (On st) (written st) [] (emitted st)))
    (pending l)
    (mkLoop (now l) (On l) (written l) [] (emitted l)).

(** How the handler classifies what the post yielded; [None] when reading
    [response.data.status] throws. *)
Inductive InvokeOutcome : Type := ok | failed | RegistryUnreachable.

Definition invoke_outcome (response : AxiosResult) : option InvokeOutcome :=
  match response with
  | Rejected => Some RegistryUnreachable
  | Fulfilled data =>
      match Get data "status" with
      | inl _ => None
      | inr status => Some (if strict_eq_str status "ok" then ok else failed)
      end
  end.

(** The diagnostic the handler logs for an outcome. *)
Definition diagnostic (accessory : PlatformAccessory) (o : InvokeOutcome) : Event :=
  match o with
  | ok =>
      Log Info (ToString (displayName accessory) +:+ " triggered successfully!") []
  | failed =>
      Log Error ("Failed to trigger: " +:+ ToString (displayName accessory)
                 +:+ "! Please check server!") []
  | RegistryUnreachable =>
      Log Error ("Failed to trigger request for "
                 +:+ ToString (displayName accessory)) []
  end.

Definition is_log (e : Event) : bool :=
  match e with
  | Log _ _ _ => true
  | _ => false
  end.

(** ** Sample data for the worked instances *)

Definition sample_hap : HAP :=
  {| uuid_generate := fun name => "uuid-of-" +:+ name |}.

Definition sample_accessory (name action' : string) : PlatformAccessory :=
  @created sample_hap "http://host/api/v1/" name action'.

Definition sample_store (accs : list PlatformAccessory) : WebRFPlatform :=
  mkPlatform "http://host/api/v1/" accs.


(** A response body [{ data: mapping }]. *)
Definition body_of (mapping : list (string * jsval)) : jsval :=
  JObj [("data", JObj mapping)].

(** ** The host's calls

    At start-up the host restores the accessories of its cache and calls
    [configureAccessory] on each, then fires [DID_FINISH_LAUNCHING]. *)

(** The accessory as [configureAccessory] leaves it, both listeners bound. *)
Definition bound (accessory : PlatformAccessory) : PlatformAccessory :=
  add_listener OnSwitchSet (add_listener OnIdentify accessory).


(** A call of one of the methods on the platform object. *)
Inductive Call : Type :=
| ConfigureAccessory (accessory : PlatformAccessory)
| AddAccessory (name : jsval) (action : string)
| RemoveAccessory (action : string)
| RemoveAccessories
| DidFinishLaunching (switches : AxiosResult).

Definition call `{HAP} (c : Call) : M unit :=
  match c with
  | ConfigureAccessory accessory => configureAccessory accessory ;; ret tt
  | AddAccessory name action => addAccessory name action
  | RemoveAccessory action => removeAccessory action
  | RemoveAccessories => removeAccessories
  | DidFinishLaunching switches => didFinishLaunching switches
  end.

(** Calls in sequence on one platform object; a call that throws leaves the
    object as it is at the throw, and the next call finds it so. *)
Definition run_calls `{HAP} (cs : list Call) (this : WebRFPlatform) : WebRFPlatform :=
  fold_left (fun this c => state_after (call c) this) cs this.

(** An accessory that has a Switch service and both listeners bound. *)
Definition tracked (accessory : PlatformAccessory) : Prop :=
  is_Some (getService accessory Switch)
  ∧ OnIdentify ∈ listeners accessory
  ∧ OnSwitchSet ∈ listeners accessory.

(** The accessories the host was asked to unregister. *)
Definition unregistered (evs : list Event) : list PlatformAccessory :=
  flat_map (fun e => match e with
                     | UnregisterPlatformAccessories _ _ accs => accs
                     | _ => []
                     end) evs.

(** A pending post continuation whose response the handler can classify. *)
Definition settles (t : Task) : Prop :=
  match t with
  | ResetTimer => True
  | AfterPost response => is_Some (invoke_outcome response)
  end.

(** An event loop between two turns: the continuations are in due order and
    none is overdue. *)
Definition loop_ok (l : EventLoop) : Prop :=
  StronglySorted (fun x y : N * Task => (x.1 <= y.1)%N) (pending l)
  ∧ Forall (fun x : N * Task => (now l <= x.1)%N ∧ settles x.2) (pending l).

(** The writes to [On] that the pending timers stand for. *)
Definition reset_writes (q : list (N * Task)) : list (N * jsval) :=
  flat_map (fun x : N * Task =>
              match x.2 with
              | ResetTimer => [(x.1, JBool false)]
              | AfterPost _ => []
              end) q.

(** The events a continuation emits when it runs. *)
Definition task_emits (accessory : PlatformAccessory) (t : Task) : list Event :=
  emitted (run_task accessory t (mkLoop 0 JUndefined [] [] [])).

(** * Properties *)

(** ** The diff *)

Lemma elem_of_difference_list (array values : list string) (x : string) :
  x ∈ difference array values ↔ x ∈ array ∧ x ∉ values.
Proof. unfold difference. rewrite list_elem_of_filter. tauto. Qed.


Lemma difference_nil_r (array : list string) : difference array [] = array.
Proof.
  unfold difference. induction array as [|x l IH]; [done|].
  rewrite filter_cons_True by apply not_elem_of_nil. by rewrite IH.
Qed.

Lemma difference_app_l (l1 l2 values : list string) :
  difference (l1 ++ l2) values = difference l1 values ++ difference l2 values.
Proof. unfold difference. apply filter_app. Qed.

Lemma difference_all_in (array values : list string) :
  (∀ x, x ∈ array → x ∈ values) → difference array values = [].
Proof.
  intros Hin. unfold difference.
  induction array as [|x l IH]; [done|].
  rewrite filter_cons_False.
  - apply IH. intros y Hy. apply Hin. by right.
  - intros Hx. apply Hx, Hin. by left.
Qed.

Lemma Get_of_key (switchData : jsval) (k : string) :
  k ∈ keys switchData → Get switchData k = inr (switch_name switchData k).
Proof.
  unfold switch_name.
  destruct switchData; simpl; try done; intros Hk; by apply elem_of_nil in Hk.
Qed.

(** ** The keys a pass gets to add *)

Lemma added_elem (switchData : jsval) (ks : list string) (k : string) :
  k ∈ added switchData ks →
  k ∈ ks ∧ name_error (switch_name switchData k) = None.
Proof.
  induction ks as [|k' ks IH]; simpl; [by intros ?%elem_of_nil|].
  destruct (name_error (switch_name switchData k')) eqn:Hk'; [by intros ?%elem_of_nil|].
  intros [->|Hk]%elem_of_cons.
  - split; [by left|done].
  - destruct (IH Hk). split; [by right|done].
Qed.

Lemma added_prefix (switchData : jsval) (ks : list string) :
  added switchData ks `prefix_of` ks.
Proof.
  induction ks as [|k ks [rest IH]]; simpl; [by exists []|].
  destruct (name_error (switch_name switchData k)); [by eexists|].
  exists rest. by rewrite IH at 1.
Qed.



Lemma difference_app_r (array values1 values2 : list string) :
  difference array (values1 ++ values2)
  = difference (difference array values1) values2.
Proof.
  unfold difference. induction array as [|x l IH]; [done|].
  destruct (decide (x ∈ values1)) as [H1|H1].
  - rewrite (filter_cons_False _ _ l) by (intros Hn; apply Hn, elem_of_app; by left).
    rewrite (filter_cons_False (fun x => x ∉ values1)) by (intros Hn; by apply Hn).
    exact IH.
  - rewrite (filter_cons_True (fun x => x ∉ values1)) by done.
    destruct (decide (x ∈ values2)) as [H2|H2].
    + rewrite (filter_cons_False _ _ l) by (intros Hn; apply Hn, elem_of_app; by right).
      rewrite (filter_cons_False (fun x => x ∉ values2)) by (intros Hn; by apply Hn).
      exact IH.
    + rewrite (filter_cons_True _ _ l)
        by (intros [?|?]%elem_of_app; [by apply H1|by apply H2]).
      rewrite (filter_cons_True (fun x => x ∉ values2)) by done.
      by rewrite IH.
Qed.

(** Once the accepted keys are in the store, the keys left to add start with
    the rejected one, or there is none left. *)
Lemma added_after_added (switchData : jsval) (ks valid : list string) :
  Forall (fun k => name_error (switch_name switchData k) = None) valid →
  added switchData (difference ks (valid ++ added switchData ks)) = [].
Proof.
  revert valid. induction ks as [|k ks IH]; intros valid Hvalid; [done|].
  cbn [added]. destruct (name_error (switch_name switchData k)) as [e|] eqn:Hk.
  - rewrite app_nil_r. unfold difference. rewrite filter_cons_True.
    + simpl. by rewrite Hk.
    + intros Hin. apply (proj1 (Forall_forall _ _) Hvalid) in Hin. congruence.
  - unfold difference. rewrite filter_cons_False.
    + fold (difference ks (valid ++ k :: added switchData ks)).
      rewrite (cons_middle k valid), app_assoc. apply IH.
      apply Forall_app. split; [done|]. by constructor.
    + intros Hn. apply Hn, elem_of_app. right. by left.
Qed.

(** ** Strings *)

Lemma append_assoc (s1 s2 s3 : string) : (s1 +:+ s2) +:+ s3 = s1 +:+ s2 +:+ s3.
Proof.
  induction s1 as [|c s1 IH]; [done|].
  change (String c ((s1 +:+ s2) +:+ s3) = String c (s1 +:+ s2 +:+ s3)).
  by rewrite IH.
Qed.

Lemma append_slash_nonempty (s : string) : s +:+ "/" ≠ "".
Proof. by destruct s. Qed.

(** A string that ends in a slash has no trailing white space to strip. *)
Lemma trimRight_slash (s : string) (arguments : list jsval) :
  trimRight (s +:+ "/") arguments = s +:+ "/".
Proof.
  induction s as [|c s IH]; [done|].
  change (String c s +:+ "/") with (String c (s +:+ "/")).
  simpl. rewrite IH.
  destruct (s +:+ "/") eqn:Hs; [|done].
  by apply append_slash_nonempty in Hs.
Qed.

(** ** What each method does *)

Section Methods.
Context `{HAP}.

Lemma run_bind {A B} (m : M A) (k : A -> M B) (this : WebRFPlatform) :
  bind m k this
  = match m this with
    | (Normal a, this', evs) =>
        match k a this' with
        | (c, this'', evs') => (c, this'', evs ++ evs')
        end
    | (Throw e, this', evs) => (Throw e, this', evs)
    end.
Proof. reflexivity. Qed.

(** One step of a run: expose the first call of a sequence and evaluate it
    when it is a primitive. *)
Ltac run_step :=
  rewrite run_bind;
  cbv beta iota delta [log_info log_error emit gets ToBoolean].

Lemma removeAccessory_run (this : WebRFPlatform) (k : string) :
  removeAccessory k this = (Normal tt, this, removeEvents this k).
Proof.
  unfold removeAccessory, removeEvents, bind, gets, log_info, log_error, emit. simpl.
  by destruct (bool_decide _).
Qed.

Lemma addAccessory_run (this : WebRFPlatform) (name : jsval) (k : string) :
  addAccessory name k this
  = match name_error name with
    | None =>
        (Normal tt, push (created (configURL this) (name_string name) k) this,
         [Log Info "Adding new accessory with name %s" [name];
          Log Info "Configuring accessory %s" [name];
          RegisterPlatformAccessories PLUGIN_NAME PLATFORM_NAME
            [created (configURL this) (name_string name) k]])
    | Some e =>
        (Throw e, this, [Log Info "Adding new accessory with name %s" [name]])
    end.
Proof. destruct name as [| | | |[|c s]| |]; reflexivity. Qed.

(** The sibling [removeAccessories] does empty the array. *)
Lemma removeAccessories_run (this : WebRFPlatform) :
  removeAccessories this
  = (Normal tt, mkPlatform (configURL this) [],
     [Log Info "Removing all accessories" [];
      UnregisterPlatformAccessories PLUGIN_NAME PLATFORM_NAME (accessories this)]).
Proof. reflexivity. Qed.

Lemma forEach_removeAccessory (this : WebRFPlatform) (ks : list string) :
  forEach ks (fun action => removeAccessory action) this
  = (Normal tt, this, flat_map (removeEvents this) ks).
Proof.
  induction ks as [|k ks IH]; [done|].
  simpl. unfold bind at 1. by rewrite removeAccessory_run, IH.
Qed.

Lemma forEach_addAccessory (this : WebRFPlatform) (switchData : jsval) (ks : list string) :
  (∀ k, k ∈ ks → k ∈ keys switchData) →
  forEach ks (fun action => name <- lift (Get switchData action) ;; addAccessory name action) this
  = (add_outcome switchData ks,
     mkPlatform (configURL this)
       (accessories this
        ++ map (created_for (configURL this) switchData) (added switchData ks)),
     addTrace (configURL this) switchData ks).
Proof.
  revert this. induction ks as [|k ks IH]; intros this Hks.
  - simpl. unfold ret. rewrite app_nil_r. by destruct this.
  - cbn [forEach added add_outcome addTrace]. unfold bind at 1. unfold bind at 1.
    rewrite (Get_of_key switchData k) by (apply Hks; by left).
    unfold lift, ret. rewrite addAccessory_run.
    destruct (name_error (switch_name switchData k)) as [e|].
    + cbn [map]. rewrite app_nil_r. by destruct this.
    + cbv beta iota.
      rewrite IH by (intros k' Hk'; apply Hks; by right).
      unfold created_for at 2. simpl. by rewrite <- app_assoc.
Qed.

(** The whole pass on a response whose body can be read. *)
Lemma didFinishLaunching_fulfilled (this : WebRFPlatform) (data switchData : jsval) :
  Get data "data" = inr switchData →
  let toRemove := difference (localKeys this) (keys switchData) in
  let toAdd := difference (keys switchData) (localKeys this) in
  didFinishLaunching (Fulfilled data) this
  = (add_outcome switchData toAdd,
     mkPlatform (configURL this)
       (accessories this
        ++ map (created_for (configURL this) switchData) (added switchData toAdd)),
     [Log Info "Cache restored." []; Log Info "Loading switch data" [];
      AxiosGet (configURL this);
      Log Info ("Removing switches: " +:+ join ", " toRemove) []]
     ++ flat_map (removeEvents this) toRemove
     ++ [Log Info ("Adding switches: " +:+ join ", " toAdd) []]
     ++ addTrace (configURL this) switchData toAdd).
Proof.
  intros Hget toRemove toAdd.
  unfold didFinishLaunching. repeat run_step.
  rewrite Hget. change (lift (inr switchData) this) with (ret switchData this). unfold ret.
  repeat run_step.
  fold (localKeys this). fold toRemove. fold toAdd.
  rewrite forEach_removeAccessory. repeat run_step.
  rewrite forEach_addAccessory
    by (intros k Hk; by apply elem_of_difference_list in Hk as [? _]).
  done.
Qed.

(** A response body that is [null] or [undefined]: the read of [data.data]
    throws before anything else is done. *)
Lemma didFinishLaunching_throws (this : WebRFPlatform) (data : jsval) (e : Exn) :
  Get data "data" = inl e →
  didFinishLaunching (Fulfilled data) this
  = (Throw e, this,
     [Log Info "Cache restored." []; Log Info "Loading switch data" [];
      AxiosGet (configURL this)]).
Proof.
  intros Hget. unfold didFinishLaunching. repeat run_step.
  by rewrite Hget.
Qed.

Lemma didFinishLaunching_rejected (this : WebRFPlatform) :
  didFinishLaunching Rejected this
  = (Normal tt, this,
     [Log Info "Cache restored." []; Log Info "Loading switch data" [];
      AxiosGet (configURL this); Log Error "Failed to access server!" []]).
Proof. reflexivity. Qed.

End Methods.

(** ** The create and destroy calls of a pass *)

Section Reconcile.
Context `{HAP}.

Lemma host_ops_app (evs1 evs2 : list Event) :
  host_ops (evs1 ++ evs2) = host_ops evs1 ++ host_ops evs2.
Proof. apply List.filter_app. Qed.

Lemma localKeys_filter (this : WebRFPlatform) (k : string) :
  k ∈ localKeys this →
  filter (fun a => action (context a) = k) (accessories this) ≠ [].
Proof.
  unfold localKeys. intros Hk Hnil.
  apply list_elem_of_In, in_map_iff in Hk as (a & Ha & Hin).
  apply list_elem_of_In in Hin.
  assert (a ∈ filter (fun a => action (context a) = k) (accessories this)) as Hf
    by (by apply list_elem_of_filter).
  rewrite Hnil in Hf. by apply elem_of_nil in Hf.
Qed.

Lemma unknown_key_filter (this : WebRFPlatform) (k : string) :
  k ∉ localKeys this →
  filter (fun a => action (context a) = k) (accessories this) = [].
Proof.
  unfold localKeys. intros Hk.
  induction (accessories this) as [|a accs IH]; [done|].
  rewrite filter_cons_False.
  - apply IH. intros Hin. apply Hk. simpl. by right.
  - intros Ha. apply Hk. simpl. rewrite Ha. by left.
Qed.

Lemma host_ops_removeEvents (this : WebRFPlatform) (ks : list string) :
  (∀ k, k ∈ ks → k ∈ localKeys this) →
  host_ops (flat_map (removeEvents this) ks) = map (destroy this) ks.
Proof.
  induction ks as [|k ks IH]; intros Hks; [done|].
  simpl. rewrite bool_decide_eq_false_2.
  - simpl. f_equal. apply IH. intros k' Hk'. apply Hks. by right.
  - intros Hlen. apply (localKeys_filter this k); [apply Hks; by left|].
    by apply length_zero_iff_nil.
Qed.


Lemma host_ops_addTrace (url : string) (switchData : jsval) (ks : list string) :
  host_ops (addTrace url switchData ks) = map (create url switchData) (added switchData ks).
Proof.
  induction ks as [|k ks IH]; [done|]. simpl.
  destruct (name_error (switch_name switchData k)); [done|].
  simpl. by rewrite IH.
Qed.

Lemma pass_host_ops (this : WebRFPlatform) (data switchData : jsval) :
  Get data "data" = inr switchData →
  host_ops (events (didFinishLaunching (Fulfilled data)) this)
  = map (destroy this) (difference (localKeys this) (keys switchData))
    ++ map (create (configURL this) switchData)
         (added switchData (difference (keys switchData) (localKeys this))).
Proof.
  intros Hget. unfold events.
  rewrite (didFinishLaunching_fulfilled this data switchData Hget).
  cbv beta iota delta [snd].
  rewrite !host_ops_app, host_ops_addTrace.
  rewrite host_ops_removeEvents; [done|].
  intros k Hk. by apply elem_of_difference_list in Hk as [? _].
Qed.

Lemma pass_state (this : WebRFPlatform) (data switchData : jsval) :
  Get data "data" = inr switchData →
  state_after (didFinishLaunching (Fulfilled data)) this
  = mkPlatform (configURL this)
      (accessories this
       ++ map (created_for (configURL this) switchData)
            (added switchData (difference (keys switchData) (localKeys this)))).
Proof.
  intros Hget. unfold state_after.
  by rewrite (didFinishLaunching_fulfilled this data switchData Hget).
Qed.


Lemma localKeys_after_pass (this : WebRFPlatform) (data switchData : jsval) :
  Get data "data" = inr switchData →
  localKeys (state_after (didFinishLaunching (Fulfilled data)) this)
  = localKeys this ++ added switchData (difference (keys switchData) (localKeys this)).
Proof.
  intros Hget. rewrite (pass_state this data switchData Hget).
  unfold localKeys at 1. simpl. rewrite map_app, map_map. simpl.
  by rewrite map_id.
Qed.

(** A key that the remote side does not list selects the same accessories
    before and after a pass: the pass only appends accessories whose keys the
    remote side lists. *)
Lemma destroy_after_pass (this : WebRFPlatform) (data switchData : jsval) (k : string) :
  Get data "data" = inr switchData →
  k ∉ keys switchData →
  destroy (state_after (didFinishLaunching (Fulfilled data)) this) k = destroy this k.
Proof.
  intros Hget Hk. rewrite (pass_state this data switchData Hget).
  unfold destroy. simpl. f_equal. rewrite filter_app.
  match goal with |- _ ++ ?l = _ => assert (l = []) as -> end;
    [|by rewrite app_nil_r].
  assert (Forall (fun k => k ∈ keys switchData)
            (added switchData (difference (keys switchData) (localKeys this)))) as Hin.
  { apply Forall_forall. intros k' [Hk' _]%added_elem.
    by apply elem_of_difference_list in Hk' as [? _]. }
  induction Hin as [|k' ks Hk' _ IH]; [done|].
  simpl. rewrite filter_cons_False; [done|]. simpl. congruence.
Qed.

Lemma unregisters_of_host_ops (evs : list Event) :
  List.filter is_unregister evs = List.filter is_unregister (host_ops evs).
Proof.
  induction evs as [|e evs IH]; [done|].
  destruct e; simpl; by rewrite ?IH.
Qed.

Lemma registers_of_host_ops (evs : list Event) :
  List.filter is_register evs = List.filter is_register (host_ops evs).
Proof.
  induction evs as [|e evs IH]; [done|].
  destruct e; simpl; by rewrite ?IH.
Qed.

Lemma unregisters_of_calls (this : WebRFPlatform) (url : string) (switchData : jsval)
    (removed news : list string) :
  List.filter is_unregister
    (map (destroy this) removed ++ map (create url switchData) news)
  = map (destroy this) removed.
Proof.
  rewrite List.filter_app.
  assert (List.filter is_unregister (map (create url switchData) news) = []) as ->
    by (by induction news).
  rewrite app_nil_r. induction removed as [|k ks IH]; [done|].
  simpl. by rewrite IH.
Qed.

Lemma registers_of_calls (this : WebRFPlatform) (url : string) (switchData : jsval)
    (removed news : list string) :
  List.filter is_register
    (map (destroy this) removed ++ map (create url switchData) news)
  = map (create url switchData) news.
Proof.
  rewrite List.filter_app.
  assert (List.filter is_register (map (destroy this) removed) = []) as ->
    by (by induction removed).
  induction news as [|k ks IH]; [done|].
  simpl in *. by rewrite IH.
Qed.

(** The second of two passes on the same response. *)
Lemma second_pass_diff (this : WebRFPlatform) (data switchData : jsval) :
  Get data "data" = inr switchData →
  let this1 := state_after (didFinishLaunching (Fulfilled data)) this in
  difference (localKeys this1) (keys switchData)
  = difference (localKeys this) (keys switchData)
  ∧ added switchData (difference (keys switchData) (localKeys this1)) = [].
Proof.
  intros Hget this1. unfold this1.
  rewrite (localKeys_after_pass this data switchData Hget). split.
  - rewrite difference_app_l.
    rewrite (difference_all_in (added _ _) (keys switchData)).
    + by rewrite app_nil_r.
    + intros k [Hk _]%added_elem. by apply elem_of_difference_list in Hk as [? _].
  - rewrite difference_app_r. apply (added_after_added switchData _ []). constructor.
Qed.

End Reconcile.

(** ** Reconciliation *)




(** C2. The second of two passes on the same response makes no create call,
    but it makes again every destroy call of the first pass: the keys removed
    by the first pass are still in [this.accessories]. *)
Theorem second_pass_repeats_destroys `{HAP} (this : WebRFPlatform)
    (data switchData : jsval) :
  Get data "data" = inr switchData →
  let this1 := state_after (didFinishLaunching (Fulfilled data)) this in
  List.filter is_register (events (didFinishLaunching (Fulfilled data)) this1) = []
  ∧ List.filter is_unregister (events (didFinishLaunching (Fulfilled data)) this1)
    = map (destroy this) (difference (localKeys this) (keys switchData))
  ∧ List.filter is_unregister (events (didFinishLaunching (Fulfilled data)) this1)
    = List.filter is_unregister (events (didFinishLaunching (Fulfilled data)) this).
Proof.
  intros Hget this1.
  destruct (second_pass_diff this data switchData Hget) as [Hrm Hadd].
  fold this1 in Hrm, Hadd.
  assert (map (destroy this1) (difference (localKeys this) (keys switchData))
          = map (destroy this) (difference (localKeys this) (keys switchData))) as Hsame.
  { apply map_ext_in. intros k Hk. apply list_elem_of_In in Hk.
    apply elem_of_difference_list in Hk as [_ Hk].
    by apply (destroy_after_pass this data switchData). }
  rewrite registers_of_host_ops.
  rewrite (unregisters_of_host_ops (events _ this1)).
  rewrite (unregisters_of_host_ops (events _ this)).
  rewrite (pass_host_ops this1 data switchData Hget), Hrm, Hadd, Hsame.
  rewrite (pass_host_ops this data switchData Hget).
  rewrite !unregisters_of_calls, registers_of_calls.
  by split_and!.
Qed.

Lemma second_pass_repeats_destroys_witness :
  let this := sample_store [sample_accessory "Lamp" "a1"] in
  let pass := @didFinishLaunching sample_hap (Fulfilled (body_of [])) in
  Get (body_of []) "data" = inr (JObj [])
  ∧ List.filter is_unregister (events pass (state_after pass this))
    = [destroy this "a1"].
Proof.
  intros this pass. split; [reflexivity|].
  exact (proj1 (proj2
    (@second_pass_repeats_destroys sample_hap this (body_of []) (JObj []) eq_refl))).
Defined.




(** C4. When the fetch of the action list throws, the pass stops there: it
    logs "Failed to access server!", makes no create and no destroy call, and
    [this] is what it was before the pass. *)
Theorem fetch_failure_aborts `{HAP} (this : WebRFPlatform) :
  outcome (didFinishLaunching Rejected) this = Normal tt
  ∧ state_after (didFinishLaunching Rejected) this = this
  ∧ host_ops (events (didFinishLaunching Rejected) this) = []
  ∧ List.filter is_log (events (didFinishLaunching Rejected) this)
    = [Log Info "Cache restored." []; Log Info "Loading switch data" [];
       Log Error "Failed to access server!" []].
Proof.
  unfold outcome, state_after, events.
  by rewrite didFinishLaunching_rejected.
Qed.



(** ** The accessory life cycle *)

(** C7. The constructor does not strip a trailing slash of the configured
    URL: [trimRight] reads no argument and strips white space only.  For a
    base address written with a trailing slash the API root, and the invoke
    URL of every accessory created under it, carry a double slash (a name
    that [addAccessory] rejects creates no accessory). *)
Theorem trailing_slash_kept `{HAP} (base : string) (name : jsval) (k : string) :
  let this := (new_WebRFPlatform (base +:+ "/")).1 in
  configURL this = base +:+ "//api/v1/"
  ∧ map (fun a => actionUrl (context a))
      (accessories (state_after (addAccessory name k) this))
    = match name_error name with
      | None => [base +:+ "//api/v1/" +:+ k]
      | Some _ => []
      end.
Proof.
  intros this.
  assert (configURL this = base +:+ "//api/v1/") as Hurl.
  { unfold this, new_WebRFPlatform. simpl.
    by rewrite trimRight_slash, append_assoc. }
  assert (accessories this = []) as Haccs by reflexivity.
  clearbody this. split; [done|].
  unfold state_after. rewrite addAccessory_run.
  destruct (name_error name); cbv beta iota delta [fst snd push accessories];
    fold (accessories this); rewrite Haccs; [done|].
  simpl. by rewrite Hurl, append_assoc.
Qed.

(** C8. [removeAccessory] for an action id that no accessory of the store
    carries completes normally: it logs the request and the error "Unable to
    remove accessory ...! Does not exist.", calls nothing on the host and
    leaves [this] as it was. *)
Theorem remove_unknown_is_logged (this : WebRFPlatform) (k : string) :
  k ∉ localKeys this →
  outcome (removeAccessory k) this = Normal tt
  ∧ state_after (removeAccessory k) this = this
  ∧ events (removeAccessory k) this
    = [Log Info "Removing accessory with action %s" [JStr k];
       Log Error ("Unable to remove accessory " +:+ k +:+ "! Does not exist.") []].
Proof.
  intros Hk. unfold outcome, state_after, events.
  rewrite removeAccessory_run. unfold removeEvents.
  by rewrite (unknown_key_filter this k Hk).
Qed.

Lemma remove_unknown_is_logged_witness :
  let this := sample_store [sample_accessory "Lamp" "a1"] in
  ("a2" ∉ localKeys this)
  ∧ state_after (removeAccessory "a2") this = this
  ∧ events (removeAccessory "a2") this
    = [Log Info "Removing accessory with action %s" [JStr "a2"];
       Log Error "Unable to remove accessory a2! Does not exist." []].
Proof.
  intros this.
  assert ("a2" ∉ localKeys this) as Hk.
  { intros Hin. apply list_elem_of_In in Hin. simpl in Hin.
    destruct Hin as [Heq|[]]. discriminate Heq. }
  split; [exact Hk|].
  exact (proj2 (remove_unknown_is_logged this "a2" Hk)).
Defined.

(** C9. [removeAccessory] never changes [this.accessories]: it asks the host
    to unregister the accessories that carry the action id (when there are
    any) and registers nothing.  So a pass only ever appends to the array,
    and every action id that was in the store before a pass (each removed one
    among them) is still in it afterwards. *)
Theorem removeAccessory_keeps_store `{HAP} (this : WebRFPlatform) (k : string)
    (switches : AxiosResult) :
  state_after (removeAccessory k) this = this
  ∧ host_ops (events (removeAccessory k) this)
    = (if decide (k ∈ localKeys this) then [destroy this k] else [])
  ∧ accessories this `prefix_of` accessories (state_after (didFinishLaunching switches) this)
  ∧ Forall (fun k' => k' ∈ localKeys (state_after (didFinishLaunching switches) this))
      (localKeys this).
Proof.
  assert (accessories this
          `prefix_of` accessories (state_after (didFinishLaunching switches) this))
    as [added Hadded].
  { destruct switches as [data|]; [|by exists []; rewrite app_nil_r].
    destruct (Get data "data") as [e|switchData] eqn:Hget.
    - unfold state_after. rewrite (didFinishLaunching_throws this data e Hget).
      exists []. by rewrite app_nil_r.
    - rewrite (pass_state this data switchData Hget). by eexists. }
  split_and!.
  - unfold state_after. by rewrite removeAccessory_run.
  - unfold events. rewrite removeAccessory_run. unfold removeEvents.
    destruct (decide (k ∈ localKeys this)) as [Hk|Hk].
    + rewrite bool_decide_eq_false_2; [done|].
      intros Hlen. apply (localKeys_filter this k Hk).
      by apply length_zero_iff_nil.
    + by rewrite (unknown_key_filter this k Hk).
  - by exists added.
  - apply Forall_forall. intros k' Hk'. unfold localKeys.
    rewrite Hadded, map_app. apply elem_of_app. by left.
Qed.

(** C10. The UUID of a new accessory is generated from its display name, not
    from its action id: for every display name that [addAccessory] accepts (a
    non-empty string), two creations with that name and any two action ids
    register accessories with the same UUID, and a pass over a mapping that
    gives the name to two keys leaves two accessories with one UUID in the
    store. *)
Theorem uuid_from_display_name `{HAP} (this1 this2 : WebRFPlatform) (c : ascii)
    (s : string) (a1 a2 url : string) :
  let name := String c s in
  let new1 := registered (events (addAccessory (JStr name) a1) this1) in
  let new2 := registered (events (addAccessory (JStr name) a2) this2) in
  let pass :=
    didFinishLaunching (Fulfilled (body_of [(a1, JStr name); (a2, JStr name)])) in
  map UUID new1 = [uuid_generate name]
  ∧ map UUID new2 = [uuid_generate name]
  ∧ map (fun a => action (context a)) new1 = [a1]
  ∧ map (fun a => action (context a)) new2 = [a2]
  ∧ map UUID (accessories (state_after pass (mkPlatform url [])))
    = [uuid_generate name; uuid_generate name]
  ∧ localKeys (state_after pass (mkPlatform url [])) = [a1; a2].
Proof.
  intros name new1 new2 pass. unfold new1, new2, events.
  rewrite !addAccessory_run.
  set (mapping := [(a1, JStr name); (a2, JStr name)]).
  assert (Get (body_of mapping) "data" = inr (JObj mapping)) as Hget by reflexivity.
  assert (switch_name (JObj mapping) a1 = JStr name) as Hn1.
  { unfold switch_name. simpl. by rewrite (bool_decide_eq_true_2 (a1 = a1)). }
  assert (switch_name (JObj mapping) a2 = JStr name) as Hn2.
  { unfold switch_name. simpl. rewrite (bool_decide_eq_true_2 (a2 = a2)) by done.
    by destruct (bool_decide (a1 = a2)). }
  assert (added (JObj mapping)
            (difference (keys (JObj mapping)) (localKeys (mkPlatform url [])))
          = [a1; a2]) as Hadd.
  { rewrite difference_nil_r.
    change (keys (JObj mapping)) with [a1; a2].
    cbn [added]. by rewrite Hn1, Hn2. }
  split_and!; [reflexivity..| |].
  - unfold pass. fold mapping. rewrite (pass_state _ _ _ Hget), Hadd.
    unfold created_for. cbn [accessories map app]. by rewrite Hn1, Hn2.
  - unfold pass. fold mapping. by rewrite (localKeys_after_pass _ _ _ Hget), Hadd.
Qed.

(** ** The trigger *)

Lemma run_task_AfterPost (accessory : PlatformAccessory) (response : AxiosResult)
    (o : InvokeOutcome) (l : EventLoop) :
  invoke_outcome response = Some o →
  run_task accessory (AfterPost response) l = say (diagnostic accessory o) l.
Proof.
  destruct response as [data|]; simpl.
  - destruct (Get data "status") as [e|status]; [done|].
    intros [= <-]. by destruct (strict_eq_str status "ok").
  - by intros [= <-].
Qed.

(** * Further properties of the platform *)

(** Expose the first call of a sequence and evaluate it when it is a
    primitive. *)
Ltac step_call :=
  rewrite run_bind;
  cbv beta iota delta [log_info log_error emit gets modify ret throw].

(** ** Restored accessories *)

Lemma configureAccessory_with_switch (this : WebRFPlatform)
    (accessory : PlatformAccessory) :
  is_Some (getService accessory Switch) →
  configureAccessory accessory this
  = (Normal (bound accessory), push (bound accessory) this,
     [Log Info "Configuring accessory %s" [displayName accessory]]).
Proof.
  intros [s Hs]. unfold configureAccessory. step_call.
  change (getService (add_listener OnIdentify accessory) Switch)
    with (getService accessory Switch).
  rewrite Hs. by step_call.
Qed.

Lemma configureAccessory_without_switch (this : WebRFPlatform)
    (accessory : PlatformAccessory) :
  getService accessory Switch = None →
  configureAccessory accessory this
  = (Throw TypeError, this,
     [Log Info "Configuring accessory %s" [displayName accessory]]).
Proof.
  intros Hs. unfold configureAccessory. step_call.
  change (getService (add_listener OnIdentify accessory) Switch)
    with (getService accessory Switch).
  by rewrite Hs.
Qed.

(** X1. [configureAccessory] on an accessory that has a Switch service binds
    the two listeners and appends the accessory to [this.accessories]; the
    accessory keeps its name, UUID, services and context, its action id joins
    the local keys, and the host is not called. *)
Theorem configure_tracks_accessory (this : WebRFPlatform)
    (accessory : PlatformAccessory) :
  is_Some (getService accessory Switch) →
  let this' := state_after (configureAccessory accessory) this in
  outcome (configureAccessory accessory) this = Normal (bound accessory)
  ∧ accessories this' = accessories this ++ [bound accessory]
  ∧ localKeys this' = localKeys this ++ [action (context accessory)]
  ∧ configURL this' = configURL this
  ∧ host_ops (events (configureAccessory accessory) this) = []
  ∧ (displayName (bound accessory), UUID (bound accessory),
     services (bound accessory), context (bound accessory))
    = (displayName accessory, UUID accessory, services accessory, context accessory)
  ∧ listeners (bound accessory) = listeners accessory ++ [OnIdentify; OnSwitchSet].
Proof.
  intros Hs this'. unfold this', outcome, state_after, events, localKeys.
  rewrite (configureAccessory_with_switch this accessory Hs).
  cbn [fst snd push accessories configURL].
  split_and!; try done.
  - by rewrite map_app.
  - unfold bound, add_listener. cbn [listeners]. by rewrite <- app_assoc.
Qed.

Lemma configure_tracks_accessory_witness :
  let this := sample_store [sample_accessory "Lamp" "a1"] in
  let cached :=
    mkAccessory (JStr "Fan") "cached-uuid" [(AccessoryInformation, JStr "Fan");
                                            (Switch, JStr "Fan")]
      (mkContext "a2" "http://old-host/api/v1/a2") [] in
  is_Some (getService cached Switch)
  ∧ localKeys (state_after (configureAccessory cached) this) = ["a1"; "a2"].
Proof.
  intros this cached.
  assert (is_Some (getService cached Switch)) as Hs by (by eexists).
  split; [exact Hs|].
  exact (proj1 (proj2 (proj2 (configure_tracks_accessory this cached Hs)))).
Defined.

(** X2. [configureAccessory] on an accessory without a Switch service throws
    a TypeError after its log line, before the push: the accessory does not
    enter [this.accessories] and the host is not called. *)
Theorem configure_without_switch_throws (this : WebRFPlatform)
    (accessory : PlatformAccessory) :
  getService accessory Switch = None →
  outcome (configureAccessory accessory) this = Throw TypeError
  ∧ state_after (configureAccessory accessory) this = this
  ∧ events (configureAccessory accessory) this
    = [Log Info "Configuring accessory %s" [displayName accessory]].
Proof.
  intros Hs. unfold outcome, state_after, events.
  by rewrite (configureAccessory_without_switch this accessory Hs).
Qed.

Lemma configure_without_switch_throws_witness :
  let this := sample_store [sample_accessory "Lamp" "a1"] in
  let cached :=
    mkAccessory (JStr "Bulb") "cached-uuid" [(AccessoryInformation, JStr "Bulb")]
      (mkContext "a2" "http://host/api/v1/a2") [] in
  getService cached Switch = None
  ∧ outcome (configureAccessory cached) this = Throw TypeError
  ∧ state_after (configureAccessory cached) this = this.
Proof.
  intros this cached.
  pose proof (configure_without_switch_throws this cached eq_refl) as (Hout & Hst & _).
  exact (conj eq_refl (conj Hout Hst)).
Defined.






(** X4. When the local and the remote key sets coincide the pass makes no
    create and no destroy call and leaves [this] as it is: accessories are
    matched by action id alone, so nothing of an accessory whose key is
    listed (name, invoke URL) is brought up to date. *)
Theorem pass_in_sync `{HAP} (this : WebRFPlatform) (data switchData : jsval) :
  Get data "data" = inr switchData →
  (list_to_set (localKeys this) : gset string) = list_to_set (keys switchData) →
  outcome (didFinishLaunching (Fulfilled data)) this = Normal tt
  ∧ state_after (didFinishLaunching (Fulfilled data)) this = this
  ∧ host_ops (events (didFinishLaunching (Fulfilled data)) this) = [].
Proof.
  intros Hget Hsame.
  assert (∀ k, k ∈ localKeys this ↔ k ∈ keys switchData) as Hiff.
  { intros k. by rewrite <- !(elem_of_list_to_set (C:=gset string)), Hsame. }
  assert (difference (localKeys this) (keys switchData) = []) as Hrm
    by (apply difference_all_in; intros k; apply Hiff).
  assert (difference (keys switchData) (localKeys this) = []) as Hadd
    by (apply difference_all_in; intros k; apply Hiff).
  rewrite (pass_host_ops this data switchData Hget), (pass_state this data switchData Hget).
  unfold outcome. rewrite (didFinishLaunching_fulfilled this data switchData Hget).
  rewrite Hrm, Hadd. cbn [fst map app]. rewrite app_nil_r.
  split_and!; [done|by destruct this|done].
Qed.

Lemma pass_in_sync_witness :
  let stale :=
    mkAccessory (JStr "Old name") "cached-uuid"
      [(AccessoryInformation, JStr "Old name"); (Switch, JStr "Old name")]
      (mkContext "a1" "http://old-host/api/v1/a1") [OnIdentify; OnSwitchSet] in
  let this := sample_store [stale] in
  let data := body_of [("a1", JStr "New name")] in
  Get data "data" = inr (JObj [("a1", JStr "New name")])
  ∧ state_after (@didFinishLaunching sample_hap (Fulfilled data)) this = this
  ∧ host_ops (events (@didFinishLaunching sample_hap (Fulfilled data)) this) = [].
Proof.
  intros stale this data.
  exact (conj eq_refl (proj2
    (@pass_in_sync sample_hap this data (JObj [("a1", JStr "New name")])
       eq_refl eq_refl))).
Defined.



(** ** What a pass registers and unregisters *)

Lemma registered_of_registers (evs : list Event) :
  registered evs = registered (List.filter is_register evs).
Proof.
  induction evs as [|e evs IH]; [done|].
  destruct e; simpl; by rewrite ?IH.
Qed.

Lemma unregistered_of_unregisters (evs : list Event) :
  unregistered evs = unregistered (List.filter is_unregister evs).
Proof.
  induction evs as [|e evs IH]; [done|].
  destruct e; simpl; by rewrite ?IH.
Qed.

Section Calls.
Context `{HAP}.

Lemma pass_registered (this : WebRFPlatform) (data switchData : jsval) :
  Get data "data" = inr switchData →
  registered (events (didFinishLaunching (Fulfilled data)) this)
  = map (created_for (configURL this) switchData)
      (added switchData (difference (keys switchData) (localKeys this))).
Proof.
  intros Hget. rewrite registered_of_registers, registers_of_host_ops.
  rewrite (pass_host_ops this data switchData Hget), registers_of_calls.
  induction (added switchData (difference (keys switchData) (localKeys this)))
    as [|k ks IH]; [done|].
  simpl. by rewrite IH.
Qed.

Lemma pass_unregistered (this : WebRFPlatform) (data switchData : jsval) :
  Get data "data" = inr switchData →
  unregistered (events (didFinishLaunching (Fulfilled data)) this)
  = flat_map (fun k => filter (fun a => action (context a) = k) (accessories this))
      (difference (localKeys this) (keys switchData)).
Proof.
  intros Hget. rewrite unregistered_of_unregisters, unregisters_of_host_ops.
  rewrite (pass_host_ops this data switchData Hget), unregisters_of_calls.
  induction (difference (localKeys this) (keys switchData)) as [|k ks IH]; [done|].
  simpl. by rewrite IH.
Qed.

End Calls.

(** X6. A pass registers only accessories whose key the remote side lists and
    the store lacks, and unregisters only accessories of the store whose key
    the remote side does not list: an accessory whose key is listed is never
    unregistered. *)
Theorem pass_calls_confined `{HAP} (this : WebRFPlatform) (data switchData : jsval) :
  Get data "data" = inr switchData →
  let evs := events (didFinishLaunching (Fulfilled data)) this in
  Forall (fun a => action (context a) ∈ keys switchData
                   ∧ action (context a) ∉ localKeys this) (registered evs)
  ∧ Forall (fun a => a ∈ accessories this
                     ∧ action (context a) ∉ keys switchData) (unregistered evs).
Proof.
  intros Hget evs. unfold evs. split.
  - rewrite (pass_registered this data switchData Hget).
    apply Forall_forall. intros a Ha.
    apply list_elem_of_In, in_map_iff in Ha as (k & <- & Hk).
    apply list_elem_of_In, added_elem in Hk as [Hk _].
    apply elem_of_difference_list in Hk. exact Hk.
  - rewrite (pass_unregistered this data switchData Hget).
    apply Forall_forall. intros a Ha.
    apply list_elem_of_In, in_flat_map in Ha as (k & Hk & Ha).
    apply list_elem_of_In, elem_of_difference_list in Hk as [_ Hk].
    apply list_elem_of_In, list_elem_of_filter in Ha as [Hak Ha].
    split; [exact Ha|]. by rewrite Hak.
Qed.

Lemma pass_calls_confined_witness :
  let this := sample_store [sample_accessory "Lamp" "A"; sample_accessory "Fan" "B"] in
  let mapping := [("A", JStr "Lamp"); ("C", JStr "Heater")] in
  let evs := events (@didFinishLaunching sample_hap (Fulfilled (body_of mapping))) this in
  Get (body_of mapping) "data" = inr (JObj mapping)
  ∧ Forall (fun a => a ∈ accessories this
                     ∧ action (context a) ∉ keys (JObj mapping)) (unregistered evs).
Proof.
  intros this mapping evs. split; [reflexivity|].
  exact (proj2 (@pass_calls_confined sample_hap this (body_of mapping) (JObj mapping)
                  eq_refl)).
Defined.

(** X7. A pass keeps the action ids of the store pairwise distinct: when
    they are distinct before the pass and the remote keys are distinct, they
    are distinct after it. *)
Theorem pass_keeps_keys_distinct `{HAP} (this : WebRFPlatform)
    (data switchData : jsval) :
  Get data "data" = inr switchData →
  NoDup (localKeys this) →
  NoDup (keys switchData) →
  NoDup (localKeys (state_after (didFinishLaunching (Fulfilled data)) this)).
Proof.
  intros Hget HL HR. rewrite (localKeys_after_pass this data switchData Hget).
  apply NoDup_app. split_and!; [done| |].
  - intros k Hk [Hk' _]%added_elem. by apply elem_of_difference_list in Hk' as [_ ?].
  - destruct (added_prefix switchData (difference (keys switchData) (localKeys this)))
      as [rest Hrest].
    assert (NoDup (difference (keys switchData) (localKeys this))) as Hnd
      by (by apply NoDup_filter).
    rewrite Hrest in Hnd. by apply NoDup_app in Hnd as [? _].
Qed.

Lemma pass_keeps_keys_distinct_witness :
  let this := sample_store [sample_accessory "Lamp" "A"; sample_accessory "Fan" "B"] in
  let mapping := [("B", JStr "Fan"); ("C", JStr "Heater")] in
  Get (body_of mapping) "data" = inr (JObj mapping)
  ∧ NoDup (localKeys this)
  ∧ NoDup (keys (JObj mapping))
  ∧ NoDup (localKeys (state_after
                        (@didFinishLaunching sample_hap (Fulfilled (body_of mapping)))
                        this)).
Proof.
  intros this mapping.
  assert (NoDup (localKeys this)) as HL by compute_done.
  assert (NoDup (keys (JObj mapping))) as HR by compute_done.
  exact (conj eq_refl (conj HL (conj HR
    (@pass_keeps_keys_distinct sample_hap this (body_of mapping) (JObj mapping)
       eq_refl HL HR)))).
Defined.

Lemma filter_by_distinct_key (accs : list PlatformAccessory) (k : string) :
  NoDup (map (fun a => action (context a)) accs) →
  k ∈ map (fun a => action (context a)) accs →
  ∃ a, filter (fun a => action (context a) = k) accs = [a] ∧ action (context a) = k.
Proof.
  induction accs as [|x accs IH]; intros Hnd Hk.
  - by apply elem_of_nil in Hk.
  - simpl in Hnd, Hk. apply NoDup_cons in Hnd as [Hx Hnd].
    destruct (decide (action (context x) = k)) as [Hxk|Hxk].
    + exists x. rewrite filter_cons_True by done. split; [|done]. f_equal.
      apply (unknown_key_filter (mkPlatform "" accs) k). unfold localKeys. simpl.
      by rewrite <- Hxk.
    + rewrite filter_cons_False by done. apply IH; [done|].
      apply elem_of_cons in Hk as [Hk|Hk]; [by symmetry in Hk|done].
Qed.

Lemma distinct_keys_distinct_accessories (accs : list PlatformAccessory) :
  NoDup (map (fun a => action (context a)) accs) → NoDup accs.
Proof.
  induction accs as [|x accs IH]; [constructor|].
  simpl. rewrite !NoDup_cons. intros [Hx Hnd]. split; [|by apply IH].
  intros Hin. apply Hx.
  apply list_elem_of_In, (in_map (fun a => action (context a))). by apply list_elem_of_In.
Qed.

Lemma destroys_of_distinct_keys (this : WebRFPlatform) (ks : list string) :
  NoDup (localKeys this) →
  (∀ k, k ∈ ks → k ∈ localKeys this) →
  ∃ removed,
    map (destroy this) ks
    = map (fun a => UnregisterPlatformAccessories PLUGIN_NAME PLATFORM_NAME [a]) removed
    ∧ map (fun a => action (context a)) removed = ks.
Proof.
  intros Hnd. induction ks as [|k ks IH]; intros Hks.
  - by exists [].
  - destruct IH as (removed & Hcalls & Hkeys); [intros k' Hk'; apply Hks; by right|].
    destruct (filter_by_distinct_key (accessories this) k Hnd) as (a & Ha & Hak);
      [apply Hks; by left|].
    exists (a :: removed). simpl. unfold destroy at 1.
    by rewrite Ha, Hcalls, Hak, Hkeys.
Qed.

(** X8. When the action ids of the store are pairwise distinct, every destroy
    call of a pass unregisters exactly one accessory, the unregistered
    accessories carry exactly the keys of toRemove, in order, and no
    accessory is unregistered twice. *)
Theorem distinct_keys_single_destroys `{HAP} (this : WebRFPlatform)
    (data switchData : jsval) :
  Get data "data" = inr switchData →
  NoDup (localKeys this) →
  let evs := events (didFinishLaunching (Fulfilled data)) this in
  Forall (fun e => ∃ a, e = UnregisterPlatformAccessories PLUGIN_NAME PLATFORM_NAME [a])
    (List.filter is_unregister evs)
  ∧ map (fun a => action (context a)) (unregistered evs)
    = difference (localKeys this) (keys switchData)
  ∧ NoDup (unregistered evs).
Proof.
  intros Hget Hnd evs.
  destruct (destroys_of_distinct_keys this
              (difference (localKeys this) (keys switchData)) Hnd)
    as (removed & Hcalls & Hkeys).
  { intros k Hk. by apply elem_of_difference_list in Hk as [? _]. }
  assert (List.filter is_unregister evs
          = map (fun a => UnregisterPlatformAccessories PLUGIN_NAME PLATFORM_NAME [a])
              removed) as Hevs.
  { unfold evs. rewrite unregisters_of_host_ops.
    by rewrite (pass_host_ops this data switchData Hget), unregisters_of_calls. }
  assert (unregistered evs = removed) as Hun.
  { rewrite unregistered_of_unregisters, Hevs. clear.
    induction removed as [|a removed IH]; [done|]. simpl. by rewrite IH. }
  split_and!.
  - rewrite Hevs. apply Forall_forall. intros e He.
    apply list_elem_of_In, in_map_iff in He as (a & <- & _). by exists a.
  - by rewrite Hun.
  - rewrite Hun. apply distinct_keys_distinct_accessories.
    rewrite Hkeys. by apply NoDup_filter.
Qed.

Lemma distinct_keys_single_destroys_witness :
  let this := sample_store [sample_accessory "Lamp" "A"; sample_accessory "Fan" "B"] in
  let evs := events (@didFinishLaunching sample_hap (Fulfilled (body_of []))) this in
  Get (body_of []) "data" = inr (JObj [])
  ∧ NoDup (localKeys this)
  ∧ map (fun a => action (context a)) (unregistered evs) = ["A"; "B"].
Proof.
  intros this evs.
  assert (NoDup (localKeys this)) as HL by compute_done.
  exact (conj eq_refl (conj HL (proj1 (proj2
    (@distinct_keys_single_destroys sample_hap this (body_of []) (JObj [])
       eq_refl HL))))).
Defined.

(** ** An invariant of the platform object *)

Lemma tracked_bound (accessory : PlatformAccessory) :
  is_Some (getService accessory Switch) → tracked (bound accessory).
Proof.
  intros Hs. split_and!; [exact Hs| |].
  - unfold bound, add_listener. cbn [listeners].
    apply elem_of_app. left. apply elem_of_app. right. by left.
  - unfold bound, add_listener. cbn [listeners].
    apply elem_of_app. right. by left.
Qed.

Lemma tracked_created `{HAP} (url : string) (name : string) (k : string) :
  tracked (created url name k).
Proof.
  split_and!; [by eexists| |]; unfold created; cbn [listeners].
  - by left.
  - right. by left.
Qed.

(** Each call keeps the API root and the shape of the stored accessories. *)
Lemma call_keeps_store `{HAP} (c : Call) (this : WebRFPlatform) :
  Forall tracked (accessories this) →
  configURL (state_after (call c) this) = configURL this
  ∧ Forall tracked (accessories (state_after (call c) this)).
Proof.
  intros Hall. destruct c as [a|name k|k| |switches]; unfold call, state_after.
  - rewrite run_bind.
    destruct (getService a Switch) as [s|] eqn:Hs.
    + rewrite (configureAccessory_with_switch this a) by (by eexists).
      split; [done|]. cbn [fst snd ret push accessories].
      apply Forall_app. split; [done|]. constructor; [|done].
      apply tracked_bound. by eexists.
    + by rewrite (configureAccessory_without_switch this a Hs).
  - rewrite addAccessory_run. destruct (name_error name); [done|].
    split; [done|]. cbn [fst snd push accessories].
    apply Forall_app. split; [done|]. constructor; [|done]. apply tracked_created.
  - by rewrite removeAccessory_run.
  - rewrite removeAccessories_run. by split.
  - destruct switches as [data|]; [|by rewrite didFinishLaunching_rejected].
    destruct (Get data "data") as [e|switchData] eqn:Hget.
    + by rewrite (didFinishLaunching_throws this data e Hget).
    + rewrite (didFinishLaunching_fulfilled this data switchData Hget).
      split; [done|]. cbn [fst snd accessories].
      apply Forall_app. split; [done|].
      apply Forall_forall. intros a Ha.
      apply list_elem_of_In, in_map_iff in Ha as (k & <- & _). apply tracked_created.
Qed.

(** X9. Whatever methods are called on the platform object after its
    construction, in whatever order and with whatever responses, [configURL]
    stays what the constructor computed, and every accessory held in
    [this.accessories] has a Switch service and both listeners bound. *)
Theorem platform_invariant `{HAP} (config_url : string) (cs : list Call) :
  let this0 := (new_WebRFPlatform config_url).1 in
  configURL (run_calls cs this0) = configURL this0
  ∧ Forall tracked (accessories (run_calls cs this0)).
Proof.
  intros this0.
  assert (∀ this, Forall tracked (accessories this) →
                  configURL (run_calls cs this) = configURL this
                  ∧ Forall tracked (accessories (run_calls cs this))) as Hgen.
  { induction cs as [|c cs IH]; intros this Hall; [done|].
    destruct (call_keeps_store c this Hall) as [Hurl Hall'].
    unfold run_calls. cbn [fold_left]. fold (run_calls cs (state_after (call c) this)).
    destruct (IH _ Hall') as [Hurl' Hall'']. split; [congruence|done]. }
  apply Hgen. constructor.
Qed.

(** ** The configured URL *)

Lemma trimRight_whitespace (ws : string) (arguments : list jsval) :
  Forall (fun c => is_whitespace c = true) (code_units ws) →
  trimRight ws arguments = "".
Proof.
  induction ws as [|c ws IH]; [done|].
  intros Hall. inversion Hall as [|? ? Hc Hws]; subst.
  simpl. by rewrite (IH Hws), Hc.
Qed.

Lemma trimRight_append_whitespace (s ws : string) (arguments : list jsval) :
  Forall (fun c => is_whitespace c = true) (code_units ws) →
  trimRight (s +:+ ws) arguments = trimRight s arguments.
Proof.
  intros Hws. induction s as [|c s IH].
  - change ("" +:+ ws) with ws. by rewrite trimRight_whitespace.
  - change (String c s +:+ ws) with (String c (s +:+ ws)).
    simpl. by rewrite IH.
Qed.

Lemma trimRight_idempotent (s : string) (arguments : list jsval) :
  trimRight (trimRight s arguments) arguments = trimRight s arguments.
Proof.
  induction s as [|c s IH]; [done|].
  simpl. destruct (trimRight s arguments) as [|c' t] eqn:Ht.
  - destruct (is_whitespace c) eqn:Hc; [done|]. simpl. by rewrite Hc.
  - change (trimRight (String c (String c' t)) arguments)
      with (match trimRight (String c' t) arguments with
            | "" => if is_whitespace c then "" else String c ""
            | t' => String c t'
            end).
    by rewrite IH.
Qed.

Lemma trimRight_split (s : string) (arguments : list jsval) :
  ∃ ws, s = trimRight s arguments +:+ ws
        ∧ Forall (fun c => is_whitespace c = true) (code_units ws).
Proof.
  induction s as [|c s (ws & Hs & Hws)]; [by exists ""|].
  simpl. destruct (trimRight s arguments) as [|c' t] eqn:Ht.
  - change ("" +:+ ws) with ws in Hs. subst s.
    destruct (is_whitespace c) eqn:Hc.
    + exists (String c ws). split; [done|]. by constructor.
    + by exists ws.
  - exists ws. split; [|done].
    change (String c (String c' t) +:+ ws) with (String c (String c' t +:+ ws)).
    by rewrite <- Hs.
Qed.

(** X10. The constructor drops the trailing white space of the configured
    URL and nothing else: the URL is a core followed by white space only, the
    core has no trailing white space left to strip, and the API root is the
    core followed by "/api/v1/".  URLs that differ in trailing white space
    only give the same API root. *)
Theorem constructor_strips_trailing_space (config_url ws : string) :
  Forall (fun c => is_whitespace c = true) (code_units ws) →
  configURL (new_WebRFPlatform (config_url +:+ ws)).1
  = configURL (new_WebRFPlatform config_url).1
  ∧ ∃ core tail,
      config_url = core +:+ tail
      ∧ Forall (fun c => is_whitespace c = true) (code_units tail)
      ∧ trimRight core [JStr "/"] = core
      ∧ configURL (new_WebRFPlatform config_url).1 = core +:+ "/api/v1/".
Proof.
  intros Hws. unfold new_WebRFPlatform. cbn [fst configURL]. split.
  - by rewrite trimRight_append_whitespace.
  - destruct (trimRight_split config_url [JStr "/"]) as (tail & Hsplit & Htail).
    exists (trimRight config_url [JStr "/"]), tail.
    split_and!; [done|done| |done]. apply trimRight_idempotent.
Qed.

Lemma constructor_strips_trailing_space_witness :
  Forall (fun c => is_whitespace c = true) (code_units "  ")
  ∧ configURL (new_WebRFPlatform "http://host  ").1 = "http://host/api/v1/".
Proof.
  assert (Forall (fun c => is_whitespace c = true) (code_units "  ")) as Hws
    by (by repeat constructor).
  split; [exact Hws|].
  exact (proj1 (constructor_strips_trailing_space "http://host" "  " Hws)).
Defined.

(** ** The event loop of the trigger *)

Lemma run_task_fields (accessory : PlatformAccessory) (t : Task) (l : EventLoop) :
  now (run_task accessory t l) = now l
  ∧ pending (run_task accessory t l) = pending l
  ∧ written (run_task accessory t l)
    = written l ++ reset_writes [(now l, t)]
  ∧ emitted l `prefix_of` emitted (run_task accessory t l).
Proof.
  destruct t as [|[data|]]; simpl.
  - split_and!; try done. rewrite <- app_assoc. by eexists.
  - destruct (Get data "status") as [e|status];
      [|destruct (strict_eq_str status "ok")];
      simpl; rewrite app_nil_r; split_and!; try done; by eexists.
  - rewrite app_nil_r. split_and!; try done. by eexists.
Qed.

Lemma elem_of_enqueue (ahead_on_tie : bool) (x y : N * Task) (q : list (N * Task)) :
  y ∈ enqueue ahead_on_tie x q ↔ y = x ∨ y ∈ q.
Proof.
  induction q as [|z q IH]; simpl.
  - rewrite elem_of_cons. by rewrite elem_of_nil.
  - destruct (_ || _).
    + by rewrite elem_of_cons.
    + rewrite !elem_of_cons, IH. tauto.
Qed.

Lemma enqueue_sorted (ahead_on_tie : bool) (x : N * Task) (q : list (N * Task)) :
  StronglySorted (fun x y : N * Task => (x.1 <= y.1)%N) q →
  StronglySorted (fun x y : N * Task => (x.1 <= y.1)%N) (enqueue ahead_on_tie x q).
Proof.
  induction q as [|z q IH]; intros Hq; simpl.
  - repeat constructor.
  - apply StronglySorted_inv in Hq as [Hq Hz].
    destruct (N.ltb x.1 z.1 || (ahead_on_tie && N.eqb x.1 z.1)) eqn:Hord.
    + assert (x.1 <= z.1)%N as Hxz.
      { apply orb_true_iff in Hord as [Hlt|[_ Heq]%andb_true_iff].
        - apply N.ltb_lt in Hlt. lia.
        - apply N.eqb_eq in Heq. lia. }
      constructor; [by constructor|]. constructor; [done|].
      eapply Forall_impl; [exact Hz|]. simpl. intros w Hw. lia.
    + apply orb_false_iff in Hord as [Hlt _]. apply N.ltb_ge in Hlt.
      constructor; [by apply IH|].
      apply Forall_forall. intros w Hw. apply elem_of_enqueue in Hw as [->|Hw]; [done|].
      by apply (proj1 (Forall_forall _ _) Hz).
Qed.

Lemma reset_writes_cons (x : N * Task) (q : list (N * Task)) :
  reset_writes (x :: q) = reset_writes [x] ++ reset_writes q.
Proof. unfold reset_writes. simpl. by rewrite app_nil_r. Qed.

Lemma reset_writes_enqueue (ahead_on_tie : bool) (x : N * Task) (q : list (N * Task)) :
  reset_writes (enqueue ahead_on_tie x q) ≡ₚ reset_writes [x] ++ reset_writes q.
Proof.
  induction q as [|z q IH]; [by rewrite app_nil_r|].
  cbn [enqueue]. destruct (_ || _); [by rewrite (reset_writes_cons x)|].
  rewrite (reset_writes_cons z), (reset_writes_cons z q), IH.
  apply Permutation_app_swap_app.
Qed.

(** The loop runs every pending continuation; only the timers write to [On],
    each at its due time. *)
Lemma drain_run (accessory : PlatformAccessory) (l : EventLoop) :
  loop_ok l →
  written (drain accessory l) = written l ++ reset_writes (pending l)
  ∧ pending (drain accessory l) = []
  ∧ emitted l `prefix_of` emitted (drain accessory l).
Proof.
  intros [Hsorted Hdue]. unfold drain.
  set (step := fun (st : EventLoop) '(due, t) =>
                 run_task accessory t
                   (mkLoop (N.max (now st) due) (On st) (written st) [] (emitted st))).
  assert (∀ q st,
            StronglySorted (fun x y : N * Task => (x.1 <= y.1)%N) q →
            Forall (fun x : N * Task => (now st <= x.1)%N) q →
            pending st = [] →
            written (fold_left step q st) = written st ++ reset_writes q
            ∧ pending (fold_left step q st) = []
            ∧ emitted st `prefix_of` emitted (fold_left step q st)) as Hgen.
  { clear. induction q as [|[due t] q IH]; intros st Hq Hnow Hpend.
    - simpl. rewrite app_nil_r. by split_and!.
    - apply StronglySorted_inv in Hq as [Hq Hdue].
      inversion Hnow as [|? ? Hd Hrest]; subst. simpl in Hd.
      cbn [fold_left].
      assert (step st (due, t)
              = run_task accessory t
                  (mkLoop due (On st) (written st) [] (emitted st))) as ->.
      { unfold step. by replace (N.max (now st) due) with due by lia. }
      destruct (run_task_fields accessory t
                  (mkLoop due (On st) (written st) [] (emitted st)))
        as (Hn & Hp & Hw & He).
      destruct (IH (run_task accessory t
                      (mkLoop due (On st) (written st) [] (emitted st))))
        as (Hw' & Hp' & He'); [done| |done|].
      { rewrite Hn. cbn [now]. eapply Forall_impl; [exact Hdue|]. done. }
      rewrite Hw', Hw. cbn [now written emitted] in *.
      split_and!; [|done|by etrans].
      by rewrite <- app_assoc, <- reset_writes_cons. }
  destruct (Hgen (pending l)
              (mkLoop (now l) (On l) (written l) [] (emitted l)))
    as (Hw & Hp & He); [done| |done|by split_and!].
  cbn [now]. eapply Forall_impl; [exact Hdue|]. by intros x [? _].
Qed.

Lemma onSet_fields (accessory : PlatformAccessory) (value : jsval) (latency : N)
    (ahead_on_tie : bool) (response : AxiosResult) (l : EventLoop) :
  onSet accessory value latency ahead_on_tie response l
  = mkLoop (now l) value (written l ++ [(now l, value)])
      (enqueue ahead_on_tie ((now l + latency)%N, AfterPost response)
         (enqueue false ((now l + 3000)%N, ResetTimer) (pending l)))
      (emitted l
       ++ [Log Info (ToString (displayName accessory) +:+ " was triggered.") [];
           Callback; AxiosPost (actionUrl (context accessory))]).
Proof.
  destruct l. unfold onSet, setTimeout, schedule, say, write_On.
  cbn [now On written pending emitted]. by rewrite <- !app_assoc.
Qed.

Lemma onSet_loop_ok (accessory : PlatformAccessory) (value : jsval) (latency : N)
    (ahead_on_tie : bool) (response : AxiosResult) (l : EventLoop) :
  loop_ok l →
  is_Some (invoke_outcome response) →
  loop_ok (onSet accessory value latency ahead_on_tie response l).
Proof.
  intros [Hsorted Hdue] Hresp. rewrite onSet_fields. split; cbn [pending now].
  - by do 2 apply enqueue_sorted.
  - apply Forall_forall. intros x Hx.
    apply elem_of_enqueue in Hx as [->|Hx]; [split; [simpl; lia|done]|].
    apply elem_of_enqueue in Hx as [->|Hx]; [split; [simpl; lia|done]|].
    by apply (proj1 (Forall_forall _ _) Hdue).
Qed.

(** X11. The SET handler does not look at the value it is given: a SET to
    any value, [false] included, acknowledges, posts to the accessory's
    invoke URL and sets the 3000 ms timer; the value is written to [On] at
    once and [false] 3000 ms later. *)
Theorem set_of_any_value_triggers (accessory : PlatformAccessory) (value : jsval)
    (t0 : N) (before : jsval) (latency : N) (ahead_on_tie : bool)
    (response : AxiosResult) :
  is_Some (invoke_outcome response) →
  let final :=
    drain accessory
      (onSet accessory value latency ahead_on_tie response
         (mkLoop t0 before [] [] [])) in
  written final = [(t0, value); ((t0 + 3000)%N, JBool false)]
  ∧ Callback ∈ emitted final
  ∧ AxiosPost (actionUrl (context accessory)) ∈ emitted final.
Proof.
  intros Hresp final.
  assert (loop_ok (mkLoop t0 before [] [] [])) as Hidle
    by (split; constructor).
  destruct (drain_run accessory _
              (onSet_loop_ok accessory value latency ahead_on_tie response _
                 Hidle Hresp))
    as (Hw & _ & [later He]).
  fold final in Hw, He. rewrite onSet_fields in Hw, He.
  cbn [now written pending emitted enqueue app fst] in Hw, He.
  split_and!.
  - rewrite Hw. by destruct (_ || _).
  - rewrite He. right. by left.
  - rewrite He. do 2 right. by left.
Qed.

Lemma set_of_any_value_triggers_witness :
  let accessory := sample_accessory "Lamp" "a1" in
  let final :=
    drain accessory
      (onSet accessory (JBool false) 40 false
         (Fulfilled (JObj [("status", JStr "ok")]))
         (mkLoop 500 (JBool false) [] [] [])) in
  is_Some (invoke_outcome (Fulfilled (JObj [("status", JStr "ok")])))
  ∧ written final = [(500%N, JBool false); (3500%N, JBool false)]
  ∧ AxiosPost "http://host/api/v1/a1" ∈ emitted final.
Proof.
  intros accessory final.
  assert (is_Some (invoke_outcome (Fulfilled (JObj [("status", JStr "ok")]))))
    as Hresp by (by eexists).
  pose proof (set_of_any_value_triggers accessory (JBool false) 500 (JBool false)
                40 false _ Hresp) as (Hw & _ & Hpost).
  exact (conj Hresp (conj Hw Hpost)).
Defined.

(** X12. An activation never cancels a reset that is already pending: on a
    loop with continuations pending, the writes to [On] that follow are the
    value at once, then [false] at the due time of every timer that was
    pending and [false] 3000 ms after this activation, and no other; the
    loop ends with nothing pending. *)
Theorem activation_keeps_pending_resets (accessory : PlatformAccessory)
    (value : jsval) (latency : N) (ahead_on_tie : bool) (response : AxiosResult)
    (l : EventLoop) :
  loop_ok l →
  is_Some (invoke_outcome response) →
  let final := drain accessory (onSet accessory value latency ahead_on_tie response l) in
  pending final = []
  ∧ ∃ resets,
      written final = written l ++ (now l, value) :: resets
      ∧ resets ≡ₚ ((now l + 3000)%N, JBool false) :: reset_writes (pending l).
Proof.
  intros Hl Hresp final.
  destruct (drain_run accessory _
              (onSet_loop_ok accessory value latency ahead_on_tie response l Hl Hresp))
    as (Hw & Hp & _).
  fold final in Hw, Hp. rewrite onSet_fields in Hw. cbn [written pending] in Hw.
  split; [done|]. eexists. split.
  - rewrite Hw, <- app_assoc. reflexivity.
  - by rewrite !reset_writes_enqueue.
Qed.

Lemma activation_keeps_pending_resets_witness :
  let accessory := sample_accessory "Lamp" "a1" in
  let l := mkLoop 1000 (JBool true) [(0%N, JBool true)] [(3000%N, ResetTimer)] [] in
  let final := drain accessory (onSet accessory (JBool true) 20 false Rejected l) in
  loop_ok l
  ∧ is_Some (invoke_outcome Rejected)
  ∧ pending final = []
  ∧ ∃ resets,
      written final = [(0%N, JBool true); (1000%N, JBool true)] ++ resets
      ∧ resets ≡ₚ [(4000%N, JBool false); (3000%N, JBool false)].
Proof.
  intros accessory l final.
  assert (loop_ok l) as Hl.
  { split; repeat constructor. simpl. lia. }
  assert (is_Some (invoke_outcome Rejected)) as Hresp by (by eexists).
  destruct (activation_keeps_pending_resets accessory (JBool true) 20 false Rejected
              l Hl Hresp) as (Hp & resets & Hw & Hperm).
  split; [exact Hl|]. split; [exact Hresp|]. split; [exact Hp|].
  exists resets. split; [exact Hw | exact Hperm].
Defined.

Lemma run_task_On_emitted (accessory : PlatformAccessory) (t : Task) (l : EventLoop) :
  On (run_task accessory t l)
  = match t with ResetTimer => JBool false | AfterPost _ => On l end
  ∧ emitted (run_task accessory t l) = emitted l ++ task_emits accessory t.
Proof.
  unfold task_emits. destruct t as [|[data|]]; simpl.
  - split; [done|]. by rewrite <- app_assoc.
  - destruct (Get data "status") as [e|status];
      [|destruct (strict_eq_str status "ok")]; by split.
  - by split.
Qed.

Lemma drain_On_emitted (accessory : PlatformAccessory) (l : EventLoop) :
  On (drain accessory l)
  = match reset_writes (pending l) with [] => On l | _ :: _ => JBool false end
  ∧ emitted (drain accessory l)
    = emitted l ++ flat_map (fun x : N * Task => task_emits accessory x.2) (pending l).
Proof.
  unfold drain.
  set (step := fun (st : EventLoop) '(due, t) =>
                 run_task accessory t
                   (mkLoop (N.max (now st) due) (On st) (written st) [] (emitted st))).
  assert (∀ q st,
            On (fold_left step q st)
            = match reset_writes q with [] => On st | _ :: _ => JBool false end
            ∧ emitted (fold_left step q st)
              = emitted st ++ flat_map (fun x : N * Task => task_emits accessory x.2) q)
    as Hgen.
  { induction q as [|[due t] q IH]; intros st.
    - simpl. by rewrite app_nil_r.
    - cbn [fold_left]. destruct (IH (step st (due, t))) as [HOn Hem].
      destruct (run_task_On_emitted accessory t
                  (mkLoop (N.max (now st) due) (On st) (written st) [] (emitted st)))
        as [HOn' Hem'].
      rewrite HOn, Hem. unfold step at 1 2. rewrite HOn', Hem'.
      cbn [On emitted flat_map snd].
      rewrite (reset_writes_cons (due, t) q), <- app_assoc.
      split; [|done]. destruct t; [by destruct (reset_writes q)|done]. }
  apply (Hgen (pending l) (mkLoop (now l) (On l) (written l) [] (emitted l))).
Qed.

Lemma reset_writes_false (q : list (N * Task)) :
  Forall (fun w : N * jsval => w.2 = JBool false) (reset_writes q).
Proof.
  induction q as [|[due [|r]] q IH]; [constructor| |done].
  rewrite reset_writes_cons. by constructor.
Qed.

(** A post continuation, wherever it is queued, adds no write. *)
Lemma reset_writes_enqueue_post (ahead_on_tie : bool) (due : N) (response : AxiosResult)
    (q : list (N * Task)) :
  reset_writes (enqueue ahead_on_tie (due, AfterPost response) q) = reset_writes q.
Proof.
  induction q as [|z q IH]; [done|]. cbn [enqueue].
  destruct (_ || _); [done|].
  by rewrite (reset_writes_cons z), (reset_writes_cons z q), IH.
Qed.

Lemma task_emits_AfterPost (accessory : PlatformAccessory) (response : AxiosResult)
    (o : InvokeOutcome) :
  invoke_outcome response = Some o →
  task_emits accessory (AfterPost response) = [diagnostic accessory o].
Proof.
  intros Hout. unfold task_emits.
  by rewrite (run_task_AfterPost accessory response o _ Hout).
Qed.

Lemma emits_enqueue (accessory : PlatformAccessory) (ahead_on_tie : bool)
    (x : N * Task) (q : list (N * Task)) :
  flat_map (fun x : N * Task => task_emits accessory x.2) (enqueue ahead_on_tie x q)
  ≡ₚ task_emits accessory x.2
     ++ flat_map (fun x : N * Task => task_emits accessory x.2) q.
Proof.
  induction q as [|z q IH]; [done|]. cbn [enqueue].
  destruct (_ || _); [done|].
  cbn [flat_map]. rewrite IH. apply Permutation_app_swap_app.
Qed.

(** A post continuation whose response is classified emits its diagnostic,
    a log line, and so leaves the other calls of the queue as they are. *)
Lemma emits_enqueue_post (accessory : PlatformAccessory) (ahead_on_tie : bool)
    (due : N) (response : AxiosResult) (o : InvokeOutcome) (q : list (N * Task)) :
  invoke_outcome response = Some o →
  List.filter (fun e => negb (is_log e))
    (flat_map (fun x : N * Task => task_emits accessory x.2)
       (enqueue ahead_on_tie (due, AfterPost response) q))
  = List.filter (fun e => negb (is_log e))
      (flat_map (fun x : N * Task => task_emits accessory x.2) q).
Proof.
  intros Hout. induction q as [|z q IH]; cbn [enqueue].
  - cbn [flat_map snd]. rewrite (task_emits_AfterPost accessory response o Hout).
    by destruct o.
  - destruct (_ || _).
    + cbn [flat_map snd]. rewrite (task_emits_AfterPost accessory response o Hout).
      by destruct o.
    + cbn [flat_map]. by rewrite !List.filter_app, IH.
Qed.

(** C6. For every activation, on a loop with or without continuations
    pending, and whatever the remote invocation yields ([ok], [failed] or no
    response at all) and whenever it settles: [true] is written to the On
    characteristic at once, every later write is [false], one of them 3000 ms
    after the activation, and On ends [false]; the writes, and the calls made
    besides logging, are given by the loop alone, not by the outcome; the
    events differ by the diagnostic of the outcome only. *)
Theorem reset_independent_of_outcome (accessory : PlatformAccessory) (latency : N)
    (ahead_on_tie : bool) (response : AxiosResult) (o : InvokeOutcome)
    (l : EventLoop) :
  loop_ok l →
  invoke_outcome response = Some o →
  let final :=
    drain accessory (onSet accessory (JBool true) latency ahead_on_tie response l) in
  let queue := enqueue false ((now l + 3000)%N, ResetTimer) (pending l) in
  let common :=
    emitted l
    ++ [Log Info (ToString (displayName accessory) +:+ " was triggered.") [];
        Callback; AxiosPost (actionUrl (context accessory))]
    ++ flat_map (fun x : N * Task => task_emits accessory x.2) queue in
  written final = written l ++ (now l, JBool true) :: reset_writes queue
  ∧ ((now l + 3000)%N, JBool false) ∈ reset_writes queue
  ∧ Forall (fun w : N * jsval => w.2 = JBool false) (reset_writes queue)
  ∧ On final = JBool false
  ∧ pending final = []
  ∧ List.filter (fun e => negb (is_log e)) (emitted final)
    = List.filter (fun e => negb (is_log e)) common
  ∧ emitted final ≡ₚ diagnostic accessory o :: common.
Proof.
  intros Hl Hout final queue common.
  assert (is_Some (invoke_outcome response)) as Hresp by (by eexists).
  destruct (drain_run accessory _
              (onSet_loop_ok accessory (JBool true) latency ahead_on_tie response l
                 Hl Hresp))
    as (Hw & Hp & _).
  destruct (drain_On_emitted accessory
              (onSet accessory (JBool true) latency ahead_on_tie response l))
    as [HOn Hem].
  fold final in Hw, Hp, HOn, Hem. rewrite onSet_fields in Hw, HOn, Hem.
  cbn [On written pending emitted] in Hw, HOn, Hem. fold queue in Hw, HOn, Hem.
  rewrite reset_writes_enqueue_post in Hw, HOn.
  assert (((now l + 3000)%N, JBool false) ∈ reset_writes queue) as Hin.
  { unfold queue. rewrite reset_writes_enqueue. by left. }
  split_and!.
  - by rewrite Hw, <- app_assoc.
  - exact Hin.
  - apply reset_writes_false.
  - rewrite HOn. destruct (reset_writes queue); [by apply elem_of_nil in Hin|done].
  - exact Hp.
  - rewrite Hem. unfold common. rewrite <- !app_assoc, !List.filter_app.
    by rewrite (emits_enqueue_post accessory ahead_on_tie _ response o queue Hout).
  - rewrite Hem, emits_enqueue. cbn [snd].
    rewrite (task_emits_AfterPost accessory response o Hout).
    unfold common. rewrite (app_assoc (emitted l)).
    symmetry. apply Permutation_middle.
Qed.

Lemma reset_independent_of_outcome_witness :
  let accessory := sample_accessory "Lamp" "a1" in
  let response := Fulfilled (JObj [("status", JStr "failed")]) in
  let l := mkLoop 1000 (JBool true) [(0%N, JBool true)] [(3000%N, ResetTimer)] [] in
  let final := drain accessory (onSet accessory (JBool true) 3000 true response l) in
  loop_ok l
  ∧ invoke_outcome response = Some failed
  ∧ written final
    = [(0%N, JBool true); (1000%N, JBool true); (3000%N, JBool false);
       (4000%N, JBool false)]
  ∧ On final = JBool false.
Proof.
  intros accessory response l final.
  assert (loop_ok l) as Hl.
  { split; repeat constructor. simpl. lia. }
  pose proof (reset_independent_of_outcome accessory 3000 true response failed l
                Hl eq_refl) as (Hw & _ & _ & Hon & _).
  exact (conj Hl (conj eq_refl (conj Hw Hon))).
Defined.
